(** * Nyx-Chat real-time hub: a shallow embedding of
    [server/src/socket/socketHandler.ts] and of the connection gate.

    The hub's two module-level maps ([connectedUsers], [userSockets]),
    the Socket.IO namespace it talks to (live sockets and the rooms each
    one has joined) and every event handler registered in
    [initializeSocket] are translated one by one.  A handler is a
    computation in a small state / output / exception monad: it reads and
    updates the hub, appends the events it emits, the log records it
    writes and the account-store updates it issues, and may throw.  A
    callback runs to its end before the next one starts: what another
    callback could do while this one waits at an [await] is not part of
    the model, except where a statement says in which hub a callback is
    run. *)

From Stdlib Require Import ZArith String Ascii List Bool Lia.
From stdpp Require Import base option gmap sets list strings pretty fin_maps.
Import ListNotations.

Local Open Scope string_scope.
Local Open Scope Z_scope.
Local Open Scope list_scope.
Set Warnings "-register-all".

(** ** JavaScript values *)

(** Values that reach the server over the wire (the decoded JSON of a
    packet, or a missing argument).  A number is kept by its [ToString]
    rendering, which is all the handlers ever observe of it.  The field
    list of an object stands for an object with distinct keys. *)
Inductive Json : Type :=
  | JUndefined
  | JNull
  | JBool (b : bool)
  | JNum (repr : string)
  | JStr (s : string)
  | JArr (items : list Json)
  | JObj (fields : list (string * Json)).

(** Values the server builds itself and hands to [emit], to the logger
    or to the account store. *)
Inductive JsVal : Type :=
  | VWire (j : Json)
  | VDate (ms : Z)
  | VArr (items : list JsVal)
  | VObj (fields : list (string * JsVal)).

Definition VStr (s : string) : JsVal := VWire (JStr s).

(** What a [throw] carries: the error's message. *)
Inductive Exn : Type :=
  | TypeError (message : string)
  | StoreError (message : string).

Definition exn_message (e : Exn) : string :=
  match e with TypeError m => m | StoreError m => m end.

Inductive Res (A : Type) : Type :=
  | Ok (a : A)
  | Throw (e : Exn).
Arguments Ok {A} a.
Arguments Throw {A} e.

Fixpoint assoc {V : Type} (k : string) (l : list (string * V)) : option V :=
  match l with
  | [] => None
  | (k', v) :: r => if String.eqb k k' then Some v else assoc k r
  end.

(** [!v] is false exactly for the truthy values. *)
Definition truthy (j : Json) : bool :=
  match j with
  | JUndefined | JNull => false
  | JBool b => b
  | JNum r => negb (String.eqb r "0" || String.eqb r "NaN")
  | JStr s => negb (String.eqb s EmptyString)
  | JArr _ | JObj _ => true
  end.

(** [data.k], as the destructuring [const { k } = data] reads it:
    a [TypeError] on [undefined] and [null], the own field of an object,
    and [undefined] on anything else (none of the names the handlers read
    is a property of a boxed primitive or of an array). *)
Definition prop (data : Json) (k : string) : Res Json :=
  match data with
  | JUndefined =>
      Throw (TypeError ("Cannot destructure property '" +:+ k +:+ "' of 'data' as it is undefined."))
  | JNull =>
      Throw (TypeError ("Cannot destructure property '" +:+ k +:+ "' of 'data' as it is null."))
  | JObj fs => Ok (default JUndefined (assoc k fs))
  | _ => Ok JUndefined
  end.

(** [const { k = d } = data]. *)
Definition prop_default (data : Json) (k : string) (d : Json) : Res Json :=
  match prop data k with
  | Ok JUndefined => Ok d
  | r => r
  end.

(** [`${v}`]: the [ToString] conversion of a template literal.  A plain
    object renders as ["[object Object]"] unless it carries an own
    [toString] field, which decoded JSON can only fill with something
    that is not callable: then the conversion throws.  An array joins its
    items with commas, [undefined] and [null] items rendering empty. *)
Fixpoint to_string (j : Json) : Res string :=
  match j with
  | JUndefined => Ok "undefined"
  | JNull => Ok "null"
  | JBool true => Ok "true"
  | JBool false => Ok "false"
  | JNum r => Ok r
  | JStr s => Ok s
  | JArr items =>
      (fix join (l : list Json) : Res string :=
         match l with
         | [] => Ok EmptyString
         | x :: r =>
             let head :=
               match x with
               | JUndefined | JNull => Ok EmptyString
               | _ => to_string x
               end in
             match head, r with
             | Throw e, _ => Throw e
             | Ok s, [] => Ok s
             | Ok s, _ :: _ =>
                 match join r with
                 | Ok t => Ok (s +:+ "," +:+ t)
                 | Throw e => Throw e
                 end
             end
         end) items
  | JObj fs =>
      match assoc "toString" fs with
      | Some _ => Throw (TypeError "Cannot convert object to primitive value")
      | None => Ok "[object Object]"
      end
  end.

(** ** An insertion-ordered [Map] *)

(** [connectedUsers] is iterated ([Array.from(connectedUsers.values())]),
    so it is kept as the list of its entries in insertion order: [set] on
    a key already present replaces the value in place, on a new key it
    appends. *)
Module JsMap.
Definition t (V : Type) : Type := list (string * V).

Definition empty {V : Type} : t V := [].

Definition get {V : Type} (k : string) (m : t V) : option V := assoc k m.

Definition has {V : Type} (k : string) (m : t V) : bool :=
  match get k m with Some _ => true | None => false end.

Fixpoint set {V : Type} (k : string) (v : V) (m : t V) : t V :=
  match m with
  | [] => [(k, v)]
  | (k', v') :: r =>
      if String.eqb k k' then (k, v) :: r else (k', v') :: set k v r
  end.

Fixpoint delete {V : Type} (k : string) (m : t V) : t V :=
  match m with
  | [] => []
  | (k', v') :: r =>
      if String.eqb k k' then delete k r else (k', v') :: delete k r
  end.

Definition values {V : Type} (m : t V) : list V := map snd m.
End JsMap.

(** ** The hub's state *)

(** [interface SocketUser].  [status] is typed ['online' | 'away' | 'busy']
    in the source, but [user:status] stores whatever the client sent. *)
Record SocketUser : Type := mkSocketUser {
  userId : string;
  username : string;
  socketId : string;
  status : Json;
  lastSeen : Z
}.

(** A live socket of the Socket.IO namespace: the identity the
    authentication middleware attached to it, and the rooms the adapter
    lists it in. *)
Record Sock : Type := mkSock {
  sockUserId : string;
  sockUsername : string;
  sockRooms : gset string
}.

Record Hub : Type := mkHub {
  connectedUsers : JsMap.t SocketUser;   (* socketId -> SocketUser *)
  userSockets : gmap string string;      (* userId -> socketId *)
  sockets : gmap string Sock             (* the namespace's live sockets *)
}.

Definition initial : Hub :=
  {| connectedUsers := JsMap.empty; userSockets := ∅; sockets := ∅ |}.

Definition with_connectedUsers (f : JsMap.t SocketUser → JsMap.t SocketUser) (h : Hub) : Hub :=
  {| connectedUsers := f (connectedUsers h);
     userSockets := userSockets h;
     sockets := sockets h |}.

Definition with_userSockets (f : gmap string string → gmap string string) (h : Hub) : Hub :=
  {| connectedUsers := connectedUsers h;
     userSockets := f (userSockets h);
     sockets := sockets h |}.

Definition with_sockets (f : gmap string Sock → gmap string Sock) (h : Hub) : Hub :=
  {| connectedUsers := connectedUsers h;
     userSockets := userSockets h;
     sockets := f (sockets h) |}.

(** ** What a handler does to the outside *)

Inductive Effect : Type :=
  | Emit (recipients : gset string) (event : string) (payload : JsVal)
  | Log (level : string) (message : string) (meta : list (string * JsVal))
  | StoreUpdate (user : string) (update : list (string * JsVal)).

(** What the surroundings supply to one run of a handler: the readings
    of [new Date()] / [Date.now()] in the order they are taken, the
    rendering of [Math.random().toString(36)], and whether the account
    store's [findByIdAndUpdate] rejects. *)
Record Env : Type := mkEnv {
  clock : nat → Z;
  rand36 : string;
  storeFails : bool
}.

(** ** The handler monad: state, output, exceptions *)

Definition M (A : Type) : Type := Hub → Hub * list Effect * Res A.

Definition ret {A : Type} (a : A) : M A := λ h, (h, [], Ok a).

Definition bind {A B : Type} (k : A → M B) (m : M A) : M B :=
  λ h,
    match m h with
    | (h1, out1, Ok a) =>
        match k a h1 with
        | (h2, out2, r) => (h2, out1 ++ out2, r)
        end
    | (h1, out1, Throw e) => (h1, out1, Throw e)
    end.

#[global] Instance M_ret : MRet M := @ret.
#[global] Instance M_bind : MBind M := @bind.

(** [try { body } catch (error) { handler }] *)
Definition try_catch {A : Type} (body : M A) (handler : Exn → M A) : M A :=
  λ h,
    match body h with
    | (h1, out1, Throw e) =>
        match handler e h1 with
        | (h2, out2, r) => (h2, out1 ++ out2, r)
        end
    | done => done
    end.

Definition lift {A : Type} (r : Res A) : M A := λ h, (h, [], r).
Definition gets {A : Type} (f : Hub → A) : M A := λ h, (h, [], Ok (f h)).
Definition modify (f : Hub → Hub) : M unit := λ h, (f h, [], Ok tt).
Definition tell (e : Effect) : M unit := λ h, (h, [e], Ok tt).

Definition hub_of {A : Type} (x : Hub * list Effect * Res A) : Hub := x.1.1.
Definition effects_of {A : Type} (x : Hub * list Effect * Res A) : list Effect := x.1.2.
Definition result_of {A : Type} (x : Hub * list Effect * Res A) : Res A := x.2.

(** ** Socket.IO: rooms and emitters *)

(** The sockets the adapter lists in [room]. *)
Definition in_room (room : string) (h : Hub) : gset string :=
  dom (filter (λ kv, room ∈ sockRooms kv.2) (sockets h)).

(** [io.to(room).emit(event, payload)] *)
Definition io_to_emit (room event : string) (payload : JsVal) : M unit :=
  λ h, (h, [Emit (in_room room h) event payload], Ok tt).

(** [socket.to(room).emit(event, payload)]: the sockets of [room], except
    those in the room named after the sending socket's id. *)
Definition socket_to_emit (id room event : string) (payload : JsVal) : M unit :=
  λ h, (h, [Emit (in_room room h ∖ in_room id h) event payload], Ok tt).

(** [socket.broadcast.emit(event, payload)]: every socket of the
    namespace, except those in the room named after the sender's id. *)
Definition socket_broadcast_emit (id event : string) (payload : JsVal) : M unit :=
  λ h, (h, [Emit (dom (sockets h) ∖ in_room id h) event payload], Ok tt).

(** [socket.emit(event, payload)]: a packet for this socket alone,
    discarded when it is no longer connected. *)
Definition socket_emit (id event : string) (payload : JsVal) : M unit :=
  λ h, (h, [Emit (dom (sockets h) ∩ {[id]}) event payload], Ok tt).

(** [socket.join(room)] / [socket.leave(room)] *)
Definition socket_join (id room : string) : M unit :=
  modify (with_sockets (λ m,
    match m !! id with
    | Some sk =>
        <[id := {| sockUserId := sockUserId sk; sockUsername := sockUsername sk;
                   sockRooms := {[room]} ∪ sockRooms sk |}]> m
    | None => m
    end)).

Definition socket_leave (id room : string) : M unit :=
  modify (with_sockets (λ m,
    match m !! id with
    | Some sk =>
        <[id := {| sockUserId := sockUserId sk; sockUsername := sockUsername sk;
                   sockRooms := sockRooms sk ∖ {[room]} |}]> m
    | None => m
    end)).

(** [socket.disconnect()], and what the transport does when a client
    goes away: the socket leaves every room and the namespace. *)
Definition socket_disconnect (id : string) : M unit :=
  modify (with_sockets (delete id)).

(** What the transport does when a handshake has passed the middleware:
    the socket enters the namespace and joins the room named after its
    own id. *)
Definition socket_open (id uid uname : string) : Hub → Hub :=
  with_sockets (<[id := {| sockUserId := uid; sockUsername := uname;
                          sockRooms := {[id]} |}]>).

(** ** Logger and account store *)

(** [{ ...fields, ...meta }]: a key of [meta] that [fields] already has
    takes the new value where it stands, a new key goes to the end. *)
Fixpoint spread {V : Type} (fields meta : list (string * V)) : list (string * V) :=
  match meta with
  | [] => fields
  | (k, v) :: rest => spread (JsMap.set k v fields) rest
  end.

(** [logActivity(userId, action, meta)].  The record's [timestamp], the
    ISO rendering of [new Date()], is kept as the instant [now]. *)
Definition logActivity (uid action : string) (now : Z) (meta : list (string * JsVal)) : M unit :=
  tell (Log "info" ("User activity: " +:+ action)
          (spread [("userId", VStr uid); ("action", VStr action); ("timestamp", VDate now)]
                  meta)).

(** [logSecurity(event, null, meta)]: with no request at hand, [ip],
    [userAgent] and [userId] are [undefined] unless [meta] fills them. *)
Definition securityRecord (event : string) (now : Z) (meta : list (string * JsVal)) : Effect :=
  Log "warn" ("Security event: " +:+ event)
      (spread [("event", VStr event); ("ip", VWire JUndefined); ("userAgent", VWire JUndefined);
               ("userId", VWire JUndefined); ("timestamp", VDate now)]
              meta).

(** [logger.error(message, error)] *)
Definition logger_error (message : string) (e : Exn) : M unit :=
  tell (Log "error" message [("error", VStr (exn_message e))]).

(** [await User.findByIdAndUpdate(userId, update)] *)
Definition findByIdAndUpdate (env : Env) (uid : string) (update : list (string * JsVal)) : M unit :=
  if storeFails env
  then lift (Throw (StoreError "findByIdAndUpdate rejected"))
  else tell (StoreUpdate uid update).

(** ** The connection handler and the event handlers

    Every handler below is the body of one [socket.on(...)] callback of
    [initializeSocket]; [id] is [socket.id], [uid] and [uname] are the
    [userId] and [username] the callback closes over. *)

Definition message_of (text : string) : JsVal := VObj [("message", VStr text)].

(** The entry of the [users:online] array built from one registry entry. *)
Definition summary (user : SocketUser) : JsVal :=
  VObj [("userId", VStr (userId user));
        ("username", VStr (username user));
        ("status", VWire (status user));
        ("lastSeen", VDate (lastSeen user))].

Definition generateMessageId (env : Env) : string :=
  "msg_" +:+ pretty (clock env 0) +:+ "_" +:+ substring 2 9 (rand36 env).

Definition generateCallId (env : Env) : string :=
  "call_" +:+ pretty (clock env 0) +:+ "_" +:+ substring 2 9 (rand36 env).

(** [io.on('connection', ...)], up to the registration of the listeners. *)
Definition on_connection (env : Env) (id uid uname : string) : M unit :=
  try_catch
    (findByIdAndUpdate env uid
       [("status", VStr "online"); ("lastSeen", VDate (clock env 0))];;
     let userInfo :=
       {| userId := uid; username := uname; socketId := id;
          status := JStr "online"; lastSeen := clock env 1 |} in
     modify (with_connectedUsers (JsMap.set id userInfo));;
     modify (with_userSockets (<[uid := id]>));;
     socket_join id ("user:" +:+ uid);;
     socket_broadcast_emit id "user:online"
       (VObj [("userId", VStr uid); ("username", VStr uname);
              ("status", VStr "online"); ("lastSeen", VDate (clock env 2))]);;
     logActivity uid "Connected to socket" (clock env 3) [("socketId", VStr id)];;
     onlineUsers ← gets (λ h, map summary (JsMap.values (connectedUsers h)));
     socket_emit id "users:online" (VArr onlineUsers))
    (λ e,
       logger_error "Error in socket connection handler:" e;;
       socket_emit id "error" (message_of "Connection error");;
       socket_disconnect id).

(** [userInfo.status = status] *)
Definition with_status (status' : Json) (u : SocketUser) : SocketUser :=
  {| userId := userId u; username := username u; socketId := socketId u;
     status := status'; lastSeen := lastSeen u |}.

(** The "update in memory" block of [user:status]: the entry of this
    socket, if the registry still has one, gets the new status. *)
Definition update_in_memory (id : string) (status' : Json) : M unit :=
  userInfo ← gets (λ h, JsMap.get id (connectedUsers h));
  match userInfo with
  | Some u => modify (with_connectedUsers (JsMap.set id (with_status status' u)))
  | None => mret tt
  end.

(** [socket.on('user:status', ...)] *)
Definition on_user_status (env : Env) (id uid uname : string) (data : Json) : M unit :=
  try_catch
    (status' ← lift (prop data "status");
     findByIdAndUpdate env uid [("status", VWire status')];;
     update_in_memory id status';;
     socket_broadcast_emit id "user:status_changed"
       (VObj [("userId", VStr uid); ("status", VWire status');
              ("lastSeen", VDate (clock env 0))]);;
     shown ← lift (to_string status');
     logActivity uid ("Status changed to " +:+ shown) (clock env 1) [])
    (λ e,
       logger_error "Error updating user status:" e;;
       socket_emit id "error" (message_of "Failed to update status")).

(** [socket.on('chat:join', ...)] *)
Definition on_chat_join (env : Env) (id uid uname : string) (data : Json) : M unit :=
  try_catch
    (chatId ← lift (prop data "chatId");
     room ← lift (to_string chatId);
     socket_join id ("chat:" +:+ room);;
     logActivity uid "Joined chat" (clock env 0) [("chatId", VWire chatId)];;
     socket_to_emit id ("chat:" +:+ room) "chat:user_joined"
       (VObj [("userId", VStr uid); ("username", VStr uname); ("chatId", VWire chatId)]))
    (λ e,
       logger_error "Error joining chat:" e;;
       socket_emit id "error" (message_of "Failed to join chat")).

(** [socket.on('chat:leave', ...)] *)
Definition on_chat_leave (env : Env) (id uid uname : string) (data : Json) : M unit :=
  try_catch
    (chatId ← lift (prop data "chatId");
     room ← lift (to_string chatId);
     socket_leave id ("chat:" +:+ room);;
     logActivity uid "Left chat" (clock env 0) [("chatId", VWire chatId)];;
     socket_to_emit id ("chat:" +:+ room) "chat:user_left"
       (VObj [("userId", VStr uid); ("username", VStr uname); ("chatId", VWire chatId)]))
    (λ e, logger_error "Error leaving chat:" e).

(** The [message] object of [message:send]. *)
Definition new_message (env : Env) (uid uname : string)
    (chatId content type replyTo attachments : Json) : JsVal :=
  VObj [("id", VStr (generateMessageId env));
        ("chatId", VWire chatId);
        ("senderId", VStr uid);
        ("senderUsername", VStr uname);
        ("content", VWire content);
        ("type", VWire type);
        ("replyTo", VWire replyTo);
        ("attachments", VWire attachments);
        ("timestamp", VDate (clock env 1));
        ("status", VStr "sent")].

(** [socket.on('message:send', ...)] *)
Definition on_message_send (env : Env) (id uid uname : string) (data : Json) : M unit :=
  try_catch
    (chatId ← lift (prop data "chatId");
     content ← lift (prop data "content");
     type ← lift (prop_default data "type" (JStr "text"));
     replyTo ← lift (prop data "replyTo");
     attachments ← lift (prop_default data "attachments" (JArr []));
     let message := new_message env uid uname chatId content type replyTo attachments in
     room ← lift (to_string chatId);
     io_to_emit ("chat:" +:+ room) "message:new" message;;
     logActivity uid "Sent message" (clock env 2)
       [("chatId", VWire chatId); ("messageType", VWire type)])
    (λ e,
       logger_error "Error sending message:" e;;
       socket_emit id "error" (message_of "Failed to send message")).

(** [socket.on('message:edit', ...)]: the broadcast is commented out in
    the source, [updatedMessage] is built and dropped. *)
Definition on_message_edit (env : Env) (id uid uname : string) (data : Json) : M unit :=
  try_catch
    (messageId ← lift (prop data "messageId");
     content ← lift (prop data "content");
     let updatedMessage :=
       VObj [("id", VWire messageId); ("content", VWire content);
             ("editedAt", VDate (clock env 0)); ("editedBy", VStr uid)] in
     logActivity uid "Edited message" (clock env 1) [("messageId", VWire messageId)])
    (λ e,
       logger_error "Error editing message:" e;;
       socket_emit id "error" (message_of "Failed to edit message")).

(** [socket.on('message:delete', ...)] *)
Definition on_message_delete (env : Env) (id uid uname : string) (data : Json) : M unit :=
  try_catch
    (messageId ← lift (prop data "messageId");
     logActivity uid "Deleted message" (clock env 0) [("messageId", VWire messageId)])
    (λ e,
       logger_error "Error deleting message:" e;;
       socket_emit id "error" (message_of "Failed to delete message")).

(** [socket.on('typing:start', ...)] and [socket.on('typing:stop', ...)]:
    no [try], so a throw leaves the callback. *)
Definition on_typing (event : string) (id uid uname : string) (data : Json) : M unit :=
  chatId ← lift (prop data "chatId");
  room ← lift (to_string chatId);
  socket_to_emit id ("chat:" +:+ room) event
    (VObj [("userId", VStr uid); ("username", VStr uname); ("chatId", VWire chatId)]).

Definition on_typing_start := on_typing "typing:start".
Definition on_typing_stop := on_typing "typing:stop".

(** [action === 'add'] *)
Definition is_add (action : Json) : bool :=
  match action with JStr s => String.eqb s "add" | _ => false end.

(** [socket.on('message:react', ...)] *)
Definition on_message_react (env : Env) (id uid uname : string) (data : Json) : M unit :=
  try_catch
    (messageId ← lift (prop data "messageId");
     emoji ← lift (prop data "emoji");
     action ← lift (prop data "action");
     let reaction :=
       VObj [("messageId", VWire messageId); ("emoji", VWire emoji);
             ("userId", VStr uid); ("username", VStr uname);
             ("action", VWire action); ("timestamp", VDate (clock env 0))] in
     logActivity uid ((if is_add action then "Added" else "Removed") +:+ " reaction")
       (clock env 1) [("messageId", VWire messageId); ("emoji", VWire emoji)])
    (λ e,
       logger_error "Error handling message reaction:" e;;
       socket_emit id "error" (message_of "Failed to update reaction")).

(** [socket.on('call:start', ...)] *)
Definition on_call_start (env : Env) (id uid uname : string) (data : Json) : M unit :=
  try_catch
    (chatId ← lift (prop data "chatId");
     type ← lift (prop data "type");
     let callId := generateCallId env in
     let callData :=
       VObj [("id", VStr callId); ("chatId", VWire chatId);
             ("initiatorId", VStr uid); ("initiatorUsername", VStr uname);
             ("type", VWire type); ("status", VStr "ringing");
             ("startTime", VDate (clock env 1))] in
     room ← lift (to_string chatId);
     socket_to_emit id ("chat:" +:+ room) "call:incoming" callData;;
     kind ← lift (to_string type);
     logActivity uid ("Started " +:+ kind +:+ " call") (clock env 2)
       [("chatId", VWire chatId); ("callId", VStr callId)])
    (λ e,
       logger_error "Error starting call:" e;;
       socket_emit id "error" (message_of "Failed to start call")).

(** [socket.on('call:accept', ...)] *)
Definition on_call_accept (env : Env) (id uid uname : string) (data : Json) : M unit :=
  try_catch
    (callId ← lift (prop data "callId");
     socket_broadcast_emit id "call:accepted"
       (VObj [("callId", VWire callId); ("acceptedBy", VStr uid);
              ("acceptedByUsername", VStr uname)]);;
     logActivity uid "Accepted call" (clock env 0) [("callId", VWire callId)])
    (λ e,
       logger_error "Error accepting call:" e;;
       socket_emit id "error" (message_of "Failed to accept call")).

(** [socket.on('call:decline', ...)] *)
Definition on_call_decline (env : Env) (id uid uname : string) (data : Json) : M unit :=
  try_catch
    (callId ← lift (prop data "callId");
     socket_broadcast_emit id "call:declined"
       (VObj [("callId", VWire callId); ("declinedBy", VStr uid);
              ("declinedByUsername", VStr uname)]);;
     logActivity uid "Declined call" (clock env 0) [("callId", VWire callId)])
    (λ e, logger_error "Error declining call:" e).

(** [socket.on('call:end', ...)] *)
Definition on_call_end (env : Env) (id uid uname : string) (data : Json) : M unit :=
  try_catch
    (callId ← lift (prop data "callId");
     socket_broadcast_emit id "call:ended"
       (VObj [("callId", VWire callId); ("endedBy", VStr uid);
              ("endedByUsername", VStr uname); ("endTime", VDate (clock env 0))]);;
     logActivity uid "Ended call" (clock env 1) [("callId", VWire callId)])
    (λ e, logger_error "Error ending call:" e).

(** [userSockets.get(k)] for a key that came over the wire: the keys of
    the map are strings, anything else finds nothing. *)
Definition userSockets_get (k : Json) (h : Hub) : option string :=
  match k with
  | JStr u => userSockets h !! u
  | _ => None
  end.

(** [if (socketId)]: [undefined] and the empty string are falsy. *)
Definition found (socketId : option string) : option string :=
  match socketId with
  | Some s => if String.eqb s EmptyString then None else Some s
  | None => None
  end.

(** [socket.on('webrtc:offer' | 'webrtc:answer' | 'webrtc:ice-candidate', ...)]:
    the three callbacks differ in the event name and in the name of the
    field they relay; none has a [try]. *)
Definition on_webrtc (event field : string) (id uid uname : string) (data : Json) : M unit :=
  callId ← lift (prop data "callId");
  body ← lift (prop data field);
  targetUserId ← lift (prop data "targetUserId");
  targetSocketId ← gets (userSockets_get targetUserId);
  match found targetSocketId with
  | Some target =>
      io_to_emit target event
        (VObj [("callId", VWire callId); (field, VWire body);
               ("fromUserId", VStr uid); ("fromUsername", VStr uname)])
  | None => mret tt
  end.

Definition on_webrtc_offer := on_webrtc "webrtc:offer" "offer".
Definition on_webrtc_answer := on_webrtc "webrtc:answer" "answer".
Definition on_webrtc_ice_candidate := on_webrtc "webrtc:ice-candidate" "candidate".

(** [socket.on('disconnect', ...)] *)
Definition on_disconnect (env : Env) (id uid uname : string) (reason : string) : M unit :=
  try_catch
    (findByIdAndUpdate env uid
       [("status", VStr "offline"); ("lastSeen", VDate (clock env 0))];;
     modify (with_connectedUsers (JsMap.delete id));;
     modify (with_userSockets (delete uid));;
     socket_broadcast_emit id "user:offline"
       (VObj [("userId", VStr uid); ("username", VStr uname);
              ("lastSeen", VDate (clock env 1))]);;
     logActivity uid "Disconnected from socket" (clock env 2)
       [("socketId", VStr id); ("reason", VStr reason)])
    (λ e, logger_error "Error handling disconnect:" e).

(** ** The exported utilities *)

Definition getConnectedUsers (h : Hub) : list SocketUser :=
  JsMap.values (connectedUsers h).



Definition sendToUser (uid event : string) (data : JsVal) : M bool :=
  socketId ← gets (λ h, userSockets h !! uid);
  match found socketId with
  | Some target => io_to_emit target event data;; mret true
  | None => mret false
  end.

(** ** Traces of the hub *)

(** The event names a socket has a listener for; a packet with any other
    name finds no listener. *)
Inductive ClientEvent : Type :=
  | UserStatus | ChatJoin | ChatLeave
  | MessageSend | MessageEdit | MessageDelete | MessageReact
  | TypingStart | TypingStop
  | CallStart | CallAccept | CallDecline | CallEnd
  | WebrtcOffer | WebrtcAnswer | WebrtcIceCandidate.

Definition event_name (ev : ClientEvent) : string :=
  match ev with
  | UserStatus => "user:status"
  | ChatJoin => "chat:join"
  | ChatLeave => "chat:leave"
  | MessageSend => "message:send"
  | MessageEdit => "message:edit"
  | MessageDelete => "message:delete"
  | MessageReact => "message:react"
  | TypingStart => "typing:start"
  | TypingStop => "typing:stop"
  | CallStart => "call:start"
  | CallAccept => "call:accept"
  | CallDecline => "call:decline"
  | CallEnd => "call:end"
  | WebrtcOffer => "webrtc:offer"
  | WebrtcAnswer => "webrtc:answer"
  | WebrtcIceCandidate => "webrtc:ice-candidate"
  end.

Definition on_event (ev : ClientEvent) (env : Env) (id uid uname : string) (data : Json) : M unit :=
  match ev with
  | UserStatus => on_user_status env id uid uname data
  | ChatJoin => on_chat_join env id uid uname data
  | ChatLeave => on_chat_leave env id uid uname data
  | MessageSend => on_message_send env id uid uname data
  | MessageEdit => on_message_edit env id uid uname data
  | MessageDelete => on_message_delete env id uid uname data
  | MessageReact => on_message_react env id uid uname data
  | TypingStart => on_typing_start id uid uname data
  | TypingStop => on_typing_stop id uid uname data
  | CallStart => on_call_start env id uid uname data
  | CallAccept => on_call_accept env id uid uname data
  | CallDecline => on_call_decline env id uid uname data
  | CallEnd => on_call_end env id uid uname data
  | WebrtcOffer => on_webrtc_offer id uid uname data
  | WebrtcAnswer => on_webrtc_answer id uid uname data
  | WebrtcIceCandidate => on_webrtc_ice_candidate id uid uname data
  end.

(** What can happen to the hub: a handshake that passed the middleware
    opens a socket, a live socket delivers a packet, a live socket goes
    away. *)
Inductive Step : Type :=
  | Connection (id uid uname : string) (env : Env)
  | Client (id : string) (ev : ClientEvent) (data : Json) (env : Env)
  | Disconnect (id : string) (reason : string) (env : Env).

(** The engine hands every connection an id of its own, drawn from
    letters, digits, [-] and [_]: never empty, never one of the room
    names the handlers build. *)
Definition valid_id (id : string) : bool :=
  negb (String.eqb id EmptyString) && negb (String.prefix "user:" id) && negb (String.prefix "chat:" id).

(** One step from hub [h], [issued] being the ids handed out so far.
    [None] when the transport cannot produce the step: an id handed out
    twice, a packet or a disconnect on a socket that is not live.  An
    exception that leaves a callback is reported by the process-level
    handler of the logger and the server goes on, so the step keeps the
    hub and the output the callback had reached. *)
Definition step (issued : gset string) (h : Hub) (s : Step)
    : option (gset string * Hub * list Effect) :=
  match s with
  | Connection id uid uname env =>
      if valid_id id && bool_decide (id ∉ issued) then
        let r := on_connection env id uid uname (socket_open id uid uname h) in
        Some ({[id]} ∪ issued, hub_of r, effects_of r)
      else None
  | Client id ev data env =>
      match sockets h !! id with
      | Some sk =>
          let r := on_event ev env id (sockUserId sk) (sockUsername sk) data h in
          Some (issued, hub_of r, effects_of r)
      | None => None
      end
  | Disconnect id reason env =>
      match sockets h !! id with
      | Some sk =>
          let r := on_disconnect env id (sockUserId sk) (sockUsername sk) reason
                     (with_sockets (delete id) h) in
          Some (issued, hub_of r, effects_of r)
      | None => None
      end
  end.

Fixpoint run_from (issued : gset string) (h : Hub) (out : list Effect) (tr : list Step)
    : option (gset string * Hub * list Effect) :=
  match tr with
  | [] => Some (issued, h, out)
  | s :: rest =>
      match step issued h s with
      | Some (issued', h', out') => run_from issued' h' (out ++ out') rest
      | None => None
      end
  end.

(** The hub after a trace, from the freshly initialised server. *)
Definition run (tr : list Step) : option Hub :=
  match run_from ∅ initial [] tr with
  | Some (_, h, _) => Some h
  | None => None
  end.

(** Everything the server emitted, logged and stored along a trace. *)
Definition output (tr : list Step) : option (list Effect) :=
  match run_from ∅ initial [] tr with
  | Some (_, _, out) => Some out
  | None => None
  end.

(** ** The connection gate: the [io.use] middleware *)

(** The fields of a [User] document the middlewares read. *)
Record UserDoc : Type := mkUserDoc {
  _id : string;
  email : string;
  doc_username : string;
  isActive : bool
}.

(** What a collaborator throws: the class of the error, as far as the
    [instanceof] tests of [authenticateToken] tell classes apart, and
    its message. *)
Inductive ErrorClass : Type :=
  | JsonWebTokenError
  | TokenExpiredError
  | NotBeforeError
  | OtherError.

Record Thrown : Type := mkThrown {
  thrown_class : ErrorClass;
  thrown_message : string
}.

(** One connection attempt: the [token] of the handshake and what the
    collaborators answer for it, [jwt.verify(token, jwtSecret)] by its
    decoded payload or the error it throws,
    [User.findById(decoded.userId)] by a document, [null], or the error
    it rejects with. *)
Record Attempt : Type := mkAttempt {
  token : Json;
  verified : Thrown + Json;
  account : Thrown + option UserDoc
}.

Inductive Verdict : Type :=
  | Accept (uid uname : string)
  | Reject (message : string).

(** [decoded.userId] *)
Definition decoded_userId (decoded : Json) : Thrown + Json :=
  match decoded with
  | JUndefined =>
      inl (mkThrown OtherError "Cannot read properties of undefined (reading 'userId')")
  | JNull =>
      inl (mkThrown OtherError "Cannot read properties of null (reading 'userId')")
  | JObj fs => inr (default JUndefined (assoc "userId" fs))
  | _ => inr JUndefined
  end.

(** The [catch] branch of the middleware. *)
Definition authentication_failed (now : Z) (id : string) (error : Thrown)
    : list Effect * Verdict :=
  ([securityRecord "Socket authentication failed" now
      [("socketId", VStr id); ("error", VStr (thrown_message error))]],
   Reject "Authentication failed").

(** The middleware: the records it logs and what it passes to [next]. *)
Definition authenticate (now : Z) (id : string) (a : Attempt) : list Effect * Verdict :=
  if negb (truthy (token a)) then
    ([securityRecord "Socket connection without token" now [("socketId", VStr id)]],
     Reject "Authentication token required")
  else
    match verified a with
    | inl error => authentication_failed now id error
    | inr decoded =>
        match decoded_userId decoded with
        | inl error => authentication_failed now id error
        | inr wanted =>
            match account a with
            | inl error => authentication_failed now id error
            | inr user =>
                match user with
                | Some doc =>
                    if isActive doc then
                      ([Log "info"
                          ("Socket authenticated: " +:+ doc_username doc +:+ " (" +:+ id +:+ ")") []],
                       Accept (_id doc) (doc_username doc))
                    else
                      ([securityRecord "Socket connection with invalid user" now
                          [("socketId", VStr id); ("userId", VWire wanted)]],
                       Reject "Invalid user")
                | None =>
                    ([securityRecord "Socket connection with invalid user" now
                        [("socketId", VStr id); ("userId", VWire wanted)]],
                     Reject "Invalid user")
                end
            end
        end
    end.

(** ** The HTTP gate: [authenticateToken] of [middleware/auth.ts] *)

(** [authHeader.split(' ')] *)
Fixpoint split_space (s : string) : list string :=
  match s with
  | EmptyString => [EmptyString]
  | String c rest =>
      if Ascii.eqb c " " then EmptyString :: split_space rest
      else
        match split_space rest with
        | piece :: pieces => String c piece :: pieces
        | [] => [String c EmptyString]
        end
  end.

(** [authHeader && authHeader.split(' ')[1]], [None] standing for
    [undefined]. *)
Definition bearer (authHeader : option string) : option string :=
  match authHeader with
  | None => None
  | Some EmptyString => Some EmptyString
  | Some header => nth_error (split_space header) 1
  end.

(** [error instanceof jwt.JsonWebTokenError]: the library derives
    [TokenExpiredError] and [NotBeforeError] from it. *)
Definition instanceof_JsonWebTokenError (c : ErrorClass) : bool :=
  match c with
  | JsonWebTokenError | TokenExpiredError | NotBeforeError => true
  | OtherError => false
  end.

(** [error instanceof jwt.TokenExpiredError] *)
Definition instanceof_TokenExpiredError (c : ErrorClass) : bool :=
  match c with
  | TokenExpiredError => true
  | _ => false
  end.

(** What the middleware does with the request: it answers with a status
    and an [{ error, message }] body, or sets [req.user] and calls
    [next]. *)
Inductive HttpOutcome : Type :=
  | Respond (code : Z) (error message : string)
  | Next (uid mail uname : string).

(** The [catch] branch of [authenticateToken]. *)
Definition authenticateToken_catch (error : Thrown) : list Effect * HttpOutcome :=
  if instanceof_JsonWebTokenError (thrown_class error) then
    ([Log "warn" "Invalid JWT token:" [("error", VStr (thrown_message error))]],
     Respond 401 "Access denied" "Invalid authentication token")
  else if instanceof_TokenExpiredError (thrown_class error) then
    ([Log "warn" "Expired JWT token" []],
     Respond 401 "Access denied" "Authentication token has expired")
  else
    ([Log "error" "Authentication error:" [("error", VStr (thrown_message error))]],
     Respond 500 "Internal server error" "Failed to authenticate token").

(** [authenticateToken(req, res, next)], [authHeader] being
    [req.headers.authorization] and the collaborators' answers given as
    for the connection gate. *)
Definition authenticateToken (authHeader : option string)
    (verified : Thrown + Json) (account : Thrown + option UserDoc)
    : list Effect * HttpOutcome :=
  match bearer authHeader with
  | None | Some EmptyString => ([], Respond 401 "Access denied" "No authentication token provided")
  | Some _ =>
      match verified with
      | inl error => authenticateToken_catch error
      | inr decoded =>
          match decoded_userId decoded with
          | inl error => authenticateToken_catch error
          | inr _ =>
              match account with
              | inl error => authenticateToken_catch error
              | inr None => ([], Respond 401 "Access denied" "User not found")
              | inr (Some doc) =>
                  if isActive doc then ([], Next (_id doc) (email doc) (doc_username doc))
                  else ([], Respond 401 "Access denied" "Account is deactivated")
              end
          end
      end
  end.

(** The four rejection causes the specification names. *)
Inductive Cause : Type :=
  | MissingCredential
  | InvalidCredential
  | AccountNotFound
  | AccountDeactivated.

(** The cause an attempt falls under, if any: none for an attempt that is
    let in, and none for the failures outside the four (a decoded
    payload without properties, an account store that rejects). *)
Definition cause_of (a : Attempt) : option Cause :=
  if negb (truthy (token a)) then Some MissingCredential
  else
    match verified a with
    | inl _ => Some InvalidCredential
    | inr decoded =>
        match decoded_userId decoded, account a with
        | inr _, inr None => Some AccountNotFound
        | inr _, inr (Some doc) => if isActive doc then None else Some AccountDeactivated
        | _, _ => None
        end
    end.

(** ** Notions the statements below are phrased in *)

(** No payload object at all: the callback was handed [undefined] or
    [null]. *)
Definition absent (data : Json) : bool :=
  match data with JUndefined | JNull => true | _ => false end.

(** The sessions joined to chat room [R]. *)
Definition joined (R : string) (h : Hub) : gset string :=
  in_room ("chat:" +:+ R) h.

(** The sessions that are connected. *)
Definition connected (h : Hub) : gset string := dom (sockets h).



(** The three events whose broadcast the source has commented out. *)
Definition stubbed : list ClientEvent := [MessageEdit; MessageDelete; MessageReact].

(** The events among a handler's output. *)
Definition emitted (out : list Effect) : list Effect :=
  List.filter (λ e, match e with Emit _ _ _ => true | _ => false end) out.


(** The name under which each cause is reported to the caller. *)
Definition reported (c : Cause) : string :=
  match c with
  | MissingCredential => "Authentication token required"
  | InvalidCredential => "Authentication failed"
  | AccountNotFound | AccountDeactivated => "Invalid user"
  end.

(** The attempt with another token in the handshake and the same answers
    from the collaborators. *)
Definition with_token (t : Json) (a : Attempt) : Attempt :=
  {| token := t; verified := verified a; account := account a |}.


(** ** Notions the proofs are phrased in *)

(** The namespace as the engine keeps it: every live socket has a valid
    id, sits in the room named after that id, and beyond it only in
    rooms the handlers named. *)
Definition adapter_ok (h : Hub) : Prop :=
  ∀ s sk, sockets h !! s = Some sk →
    valid_id s = true ∧ s ∈ sockRooms sk ∧
    ∀ r, r ∈ sockRooms sk →
      r = s ∨ String.prefix "user:" r = true ∨ String.prefix "chat:" r = true.

(** [preserves I m]: whatever [m] returns or throws, the hub it leaves
    satisfies [I] if the hub it started from did. *)
Definition preserves {A : Type} (I : Hub → Prop) (m : M A) : Prop :=
  ∀ h, I h → I (hub_of (m h)).

(** The hub a connection handler leaves when the account store answers:
    the socket is in the registry and in the index, and has joined its
    user's room. *)
Definition registered (env : Env) (id uid uname : string) (h : Hub) : Hub :=
  {| connectedUsers :=
       JsMap.set id {| userId := uid; username := uname; socketId := id;
                       status := JStr "online"; lastSeen := clock env 1 |}
         (connectedUsers h);
     userSockets := <[uid := id]> (userSockets h);
     sockets := <[id := {| sockUserId := uid; sockUsername := uname;
                           sockRooms := {[ "user:" +:+ uid ]} ∪ {[id]} |}]> (sockets h) |}.

(** The invariant of the running server, [issued] being the ids the
    engine has handed out. *)
Record hub_inv (issued : gset string) (h : Hub) : Prop := mk_hub_inv {
  (* live sockets carry ids the engine handed out *)
  inv_live : ∀ s, is_Some (sockets h !! s) → s ∈ issued;
  (* and so do the registry's entries *)
  inv_registry : ∀ s, is_Some (JsMap.get s (connectedUsers h)) → s ∈ issued;
  (* an index entry names a registry entry of that user *)
  inv_index : ∀ u s, userSockets h !! u = Some s →
    ∃ info, JsMap.get s (connectedUsers h) = Some info ∧ userId info = u;
  (* the registry entry of a live socket carries the socket's user *)
  inv_owner : ∀ s info sk,
    JsMap.get s (connectedUsers h) = Some info → sockets h !! s = Some sk →
    userId info = sockUserId sk;
  inv_adapter : adapter_ok h;
  (* every id handed out is one the engine can produce *)
  inv_valid : ∀ s, s ∈ issued → valid_id s = true
}.

(** ** Sample runs *)

Definition env0 : Env :=
  {| clock := λ n, 1762128000000 + Z.of_nat n;
     rand36 := "0.4fzyo82mvyr";
     storeFails := false |}.

(** The same surroundings with the account store rejecting. *)
Definition store_down : Env :=
  {| clock := clock env0; rand36 := rand36 env0; storeFails := true |}.

Definition hub_after (tr : list Step) : Hub := default initial (run tr).

(** Alice and Bob connect. *)
Definition alice_and_bob : list Step :=
  [ Connection "sA" "A" "alice" env0;
    Connection "sB" "B" "bob" env0 ].

Definition in_room1 : Json := JObj [("chatId", JStr "room1")].
Definition hi : Json := JObj [("chatId", JStr "room1"); ("content", JStr "hi")].



(** Bob goes away while the account store is down: his disconnect
    handler stops at its first statement. *)
Definition bob_gone_uncleaned : list Step :=
  alice_and_bob ++ [ Disconnect "sB" "transport close" store_down ].

(** Alice connects from a second device while Bob comes and goes. *)
Definition alice_twice : list Step :=
  [ Connection "sA" "A" "alice" env0;
    Connection "sB" "B" "bob" env0;
    Connection "sA2" "A" "alice" env0;
    Disconnect "sB" "transport close" env0 ].

Definition offer_to_bob : Json :=
  JObj [("callId", JStr "c1"); ("offer", JStr "v=0"); ("targetUserId", JStr "B")].

Definition away : Json := JObj [("status", JStr "away")].

(** A valid token for an account the store does not have, and one for an
    account that has been deactivated. *)
Definition attempt_unknown : Attempt :=
  {| token := JStr "eyJhbGciOi.unknown";
     verified := inr (JObj [("userId", JStr "u404")]);
     account := inr None |}.

Definition attempt_deactivated : Attempt :=
  {| token := JStr "eyJhbGciOi.deactivated";
     verified := inr (JObj [("userId", JStr "u7")]);
     account := inr (Some {| _id := "u7"; email := "carol@nyx.chat";
                             doc_username := "carol"; isActive := false |}) |}.


(** ** The other middlewares of [middleware/auth.ts] *)

(** [req.user], as [authenticateToken] and [optionalAuth] set it. *)
Record ReqUser : Type := mkReqUser {
  req_userId : string;
  req_email : string;
  req_username : string
}.

(** What a middleware does with the request: it answers with a status
    and an [{ error, message }] body, or calls [next]. *)
Inductive Passage : Type :=
  | Answered (code : Z) (error message : string)
  | Continue.

(** [optionalAuth(req, res, next)]: the records it logs, [req.user]
    afterwards, and what it does with the request; [user] is [req.user]
    as the middleware finds it. *)
Definition optionalAuth (authHeader : option string)
    (verified : Thrown + Json) (account : Thrown + option UserDoc)
    (user : option ReqUser) : list Effect * option ReqUser * Passage :=
  let failed (error : Thrown) :=
    ([Log "debug" "Optional auth failed:" [("error", VStr (thrown_message error))]],
     user, Continue) in
  match bearer authHeader with
  | None | Some EmptyString => ([], user, Continue)
  | Some _ =>
      match verified with
      | inl error => failed error
      | inr decoded =>
          match decoded_userId decoded with
          | inl error => failed error
          | inr _ =>
              match account with
              | inl error => failed error
              | inr (Some doc) =>
                  if isActive doc
                  then ([], Some (mkReqUser (_id doc) (email doc) (doc_username doc)), Continue)
                  else ([], user, Continue)
              | inr None => ([], user, Continue)
              end
          end
      end
  end.

(** [s.endsWith(suffix)] *)
Definition endsWith (s suffix : string) : bool :=
  (String.length suffix <=? String.length s)%nat
  && String.eqb (substring (String.length s - String.length suffix)
                           (String.length suffix) s) suffix.

(** [roles.includes(userRole)] *)
Definition includes (roles : list string) (userRole : string) : bool :=
  existsb (String.eqb userRole) roles.

(** The role [requireRole] gives an account. *)
Definition userRole (doc : UserDoc) : string :=
  if endsWith (email doc) "@admin.nyx" then "admin" else "user".

(** [requireRole(roles)(req, res, next)], [account] being what
    [User.findById(req.user.userId)] answers. *)
Definition requireRole (roles : list string) (user : option ReqUser)
    (account : Thrown + option UserDoc) : list Effect * Passage :=
  match user with
  | None => ([], Answered 401 "Access denied" "Authentication required")
  | Some _ =>
      match account with
      | inl error =>
          ([Log "error" "Role check error:" [("error", VStr (thrown_message error))]],
           Answered 500 "Internal server error" "Failed to check user permissions")
      | inr None => ([], Answered 401 "Access denied" "User not found")
      | inr (Some doc) =>
          if negb (includes roles (userRole doc))
          then ([], Answered 403 "Access forbidden" "Insufficient permissions")
          else ([], Continue)
      end
  end.

(** One entry of the [userRequests] map of [rateLimitByUser]. *)
Record Limit : Type := mkLimit {
  count : Z;
  resetTime : Z
}.

(** [req.user?.userId || req.ip], [None] standing for [undefined]. *)
Definition limit_key (user : option ReqUser) (ip : option string) : option string :=
  match user with
  | Some u => if String.eqb (req_userId u) EmptyString then ip else Some (req_userId u)
  | None => ip
  end.

(** [Math.ceil(ms / 1000)] *)
Definition ceil_seconds (ms : Z) : Z := - ((- ms) / 1000).

(** The middleware [rateLimitByUser(maxRequests, windowMs)] returns, run
    on one request at time [now]: the [userRequests] map afterwards and
    what it does with the request.  The limits and the clock are whole
    numbers. *)
Definition rateLimitByUser (maxRequests windowMs : Z)
    (user : option ReqUser) (ip : option string) (now : Z)
    (userRequests : gmap (option string) Limit)
    : gmap (option string) Limit * Passage :=
  let userId := limit_key user ip in
  let fresh := (<[userId := mkLimit 1 (now + windowMs)]> userRequests, Continue) in
  match userRequests !! userId with
  | None => fresh
  | Some userLimit =>
      if now >? resetTime userLimit then fresh
      else if count userLimit >=? maxRequests then
        (userRequests,
         Answered 429 "Rate limit exceeded"
           ("Too many requests. Try again in "
            +:+ pretty (ceil_seconds (resetTime userLimit - now)) +:+ " seconds."))
      else
        (<[userId := mkLimit (count userLimit + 1) (resetTime userLimit)]> userRequests,
         Continue)
  end.

(** One request as the rate limiter sees it. *)
Record Hit : Type := mkHit {
  hit_user : option ReqUser;
  hit_ip : option string;
  hit_now : Z
}.

(** The middleware of one [rateLimitByUser(maxRequests, windowMs)] call
    run on a sequence of requests: for each request the key it was
    counted under and what was done with it, and the map at the end. *)
Fixpoint serve (maxRequests windowMs : Z) (hits : list Hit)
    (userRequests : gmap (option string) Limit)
    : list (option string * Passage) * gmap (option string) Limit :=
  match hits with
  | [] => ([], userRequests)
  | hit :: rest =>
      let '(userRequests', passage) :=
        rateLimitByUser maxRequests windowMs (hit_user hit) (hit_ip hit) (hit_now hit)
          userRequests in
      let '(log, final) := serve maxRequests windowMs rest userRequests' in
      ((limit_key (hit_user hit) (hit_ip hit), passage) :: log, final)
  end.

(** The fields of a [User] document that [checkAccountLock] and the
    login of [models/User.ts] read beyond those of [UserDoc];
    [lockUntil] in milliseconds, [None] when the field is not set. *)
Record AccountDoc : Type := mkAccountDoc {
  doc : UserDoc;
  loginAttempts : Z;
  lockUntil : option Z
}.

(** The [isLocked] virtual of [models/User.ts], read at time [now]. *)
Definition isLocked (now : Z) (user : AccountDoc) : bool :=
  match lockUntil user with
  | Some until => until >? now
  | None => false
  end.

(** [checkAccountLock(req, res, next)], the lock read at time [now]. *)
Definition checkAccountLock (now : Z) (user : option ReqUser)
    (account : Thrown + option AccountDoc) : list Effect * Passage :=
  match user with
  | None => ([], Continue)
  | Some _ =>
      match account with
      | inl error =>
          ([Log "error" "Account lock check error:"
              [("error", VStr (thrown_message error))]],
           Answered 500 "Internal server error" "Failed to check account status")
      | inr None => ([], Answered 401 "Access denied" "User not found")
      | inr (Some found) =>
          if isLocked now found
          then ([], Answered 423 "Account locked"
                      "Account is temporarily locked due to security reasons")
          else ([], Continue)
      end
  end.

(** ** The login of [models/User.ts] *)

(** [incLoginAttempts] at time [now]: the stored document after the
    update it issues. *)
Definition incLoginAttempts (now : Z) (user : AccountDoc) : AccountDoc :=
  let expired := match lockUntil user with Some until => until <? now | None => false end in
  if expired then
    {| doc := doc user; loginAttempts := 1; lockUntil := None |}
  else
    {| doc := doc user;
       loginAttempts := loginAttempts user + 1;
       lockUntil :=
         if (loginAttempts user + 1 >=? 5) && negb (isLocked now user)
         then Some (now + 2 * 60 * 60 * 1000)
         else lockUntil user |}.

(** [resetLoginAttempts]: both fields unset; a document read back has
    the schema's default, 0, for [loginAttempts]. *)
Definition resetLoginAttempts (user : AccountDoc) : AccountDoc :=
  {| doc := doc user; loginAttempts := 0; lockUntil := None |}.

(** [User.findByCredentials(email, password)] for the active account
    [user] that [findOne] finds; [isMatch] is what [bcrypt.compare]
    answers, [now] is when the lock is looked at and [later] when the
    failed attempt is recorded.  The stored document afterwards, and the
    document returned or the message of the error thrown. *)
Definition findByCredentials (now later : Z) (user : AccountDoc) (isMatch : bool)
    : AccountDoc * (string + AccountDoc) :=
  if isLocked now user then
    (user, inl "Account is temporarily locked due to too many failed login attempts")
  else if negb isMatch then
    (incLoginAttempts later user, inl "Invalid credentials")
  else if loginAttempts user >? 0 then
    (resetLoginAttempts user, inr user)
  else (user, inr user).

(** One login attempt on an account: when the lock is looked at, when a
    failure is recorded, and whether the password matches. *)
Record Login : Type := mkLogin {
  login_now : Z;
  login_later : Z;
  login_isMatch : bool
}.

(** A sequence of login attempts on one account: the stored document at
    the end and the outcome of each attempt. *)
Fixpoint logins (attempts : list Login) (user : AccountDoc)
    : AccountDoc * list (string + AccountDoc) :=
  match attempts with
  | [] => (user, [])
  | attempt :: rest =>
      let '(stored, outcome) :=
        findByCredentials (login_now attempt) (login_later attempt) user
          (login_isMatch attempt) in
      let '(final, outcomes) := logins rest stored in
      (final, outcome :: outcomes)
  end.

(** ** Notions the middlewares' properties are phrased in *)

(** Whether a request carries a token, as each gate sees it. *)
Definition presents (authHeader : option string) : bool :=
  match bearer authHeader with
  | Some (String _ _) => true
  | _ => false
  end.

(** A word: a string without a space. *)
Fixpoint no_space (s : string) : bool :=
  match s with
  | EmptyString => true
  | String c rest => negb (Ascii.eqb c " ") && no_space rest
  end.

(** How many requests of a log were counted under [key] and let
    through, and how many requests of a sequence are counted under
    [key]. *)
Definition let_through (key : option string) (log : list (option string * Passage)) : nat :=
  length (List.filter
            (λ entry, bool_decide (entry.1 = key)
                      && match entry.2 with Continue => true | _ => false end) log).

Definition requests (key : option string) (hits : list Hit) : nat :=
  length (List.filter
            (λ hit, bool_decide (limit_key (hit_user hit) (hit_ip hit) = key)) hits).

(** What holds of the lock fields of every stored account: without a
    lock fewer than five failures are counted, with one at least
    five. *)
Definition lock_inv (user : AccountDoc) : Prop :=
  match lockUntil user with
  | None => 0 ≤ loginAttempts user ≤ 4
  | Some _ => 5 ≤ loginAttempts user
  end.

(** ** Notions the further properties are phrased in *)

(** [triple I P m]: started in a hub that satisfies [I], [m] leaves a hub
    that satisfies [I], and everything it emits, logs and stores
    satisfies [P]. *)
Definition triple {A : Type} (I : Hub → Prop) (P : Effect → Prop) (m : M A) : Prop :=
  ∀ h, I h → I (hub_of (m h)) ∧ Forall P (effects_of (m h)).

(** The sockets an effect is delivered to. *)
Definition recipients_of (e : Effect) : gset string :=
  match e with
  | Emit recipients _ _ => recipients
  | _ => ∅
  end.


(** An activity record in the output is attributed to user [uid]. *)
Definition attributed_to (uid : string) (e : Effect) : Prop :=
  match e with
  | Log level message fields =>
      if String.eqb level "info"
      then assoc "userId" fields = Some (VStr uid)
           ∧ ∃ action, message = "User activity: " +:+ action
                       ∧ assoc "action" fields = Some (VStr action)
      else True
  | _ => True
  end.

(** Who a registry entry says it is. *)
Definition identity_of (u : SocketUser) : string * string * string :=
  (userId u, username u, socketId u).

(** The registry's keys, in order, each with the identity of its entry. *)
Definition identities (h : Hub) : list (string * (string * string * string)) :=
  map (λ kv, (kv.1, identity_of kv.2)) (connectedUsers h).

(** What an event of socket [id] leaves alone, from hub [h0] to hub [h]:
    the index, the registry's keys and identities, every other socket's
    registry entry and rooms, and the identity and the rooms other than
    chat rooms of [id] itself. *)
Definition client_frame (id : string) (h0 h : Hub) : Prop :=
  userSockets h = userSockets h0
  ∧ identities h = identities h0
  ∧ (∀ s, s ≠ id → JsMap.get s (connectedUsers h) = JsMap.get s (connectedUsers h0))
  ∧ (∀ s, s ≠ id → sockets h !! s = sockets h0 !! s)
  ∧ match sockets h0 !! id, sockets h !! id with
    | Some sk0, Some sk =>
        sockUserId sk = sockUserId sk0 ∧ sockUsername sk = sockUsername sk0
        ∧ ∀ r, String.prefix "chat:" r = false → r ∈ sockRooms sk ↔ r ∈ sockRooms sk0
    | None, None => True
    | _, _ => False
    end.

(** The hub after [socket.join(room)] and after [socket.leave(room)] on
    socket [id]. *)
Definition after_join (id room : string) (h : Hub) : Hub :=
  hub_of (socket_join id room h).

Definition after_leave (id room : string) (h : Hub) : Hub :=
  hub_of (socket_leave id room h).

(** The two typing events: listener and emitted event name. *)
Definition typing : list (ClientEvent * string) :=
  [ (TypingStart, "typing:start"); (TypingStop, "typing:stop") ].


(** The hub after a trace together with everything emitted, logged and
    stored along it. *)
Definition play (tr : list Step) : option (Hub * list Effect) :=
  match run_from ∅ initial [] tr with
  | Some (_, h, out) => Some (h, out)
  | None => None
  end.

(** The registry entry a connection handler writes. *)
Definition new_entry (env : Env) (id uid uname : string) : SocketUser :=
  {| userId := uid; username := uname; socketId := id;
     status := JStr "online"; lastSeen := clock env 1 |}.


(** ** Further sample runs *)

(** The hub after a trace and what was emitted, logged and stored along
    it. *)
Definition played (tr : list Step) : Hub * list Effect :=
  default (initial, []) (play tr).

(** Alice and Bob connect and join ["room1"]. *)
Definition room1_joined : list Step :=
  alice_and_bob ++
  [ Client "sA" ChatJoin in_room1 env0;
    Client "sB" ChatJoin in_room1 env0 ].




(** An account, as the store holds it, and a handshake and a request
    that carry a token for it. *)
Definition carol : UserDoc :=
  {| _id := "u7"; email := "carol@admin.nyx"; doc_username := "carol"; isActive := true |}.

Definition attempt_carol : Attempt :=
  {| token := JStr "eyJhbGciOi.carol";
     verified := inr (JObj [("userId", JStr "u7")]);
     account := inr (Some carol) |}.

Definition carol_signed_in : ReqUser :=
  {| req_userId := "u7"; req_email := "carol@admin.nyx"; req_username := "carol" |}.

(** Carol's account with nothing counted against it, and five logins
    with a wrong password, a minute apart. *)
Definition carol_account : AccountDoc :=
  {| doc := carol; loginAttempts := 0; lockUntil := None |}.

Definition wrong_password (minute : Z) : Login :=
  {| login_now := 1762128000000 + 60000 * minute;
     login_later := 1762128000100 + 60000 * minute;
     login_isMatch := false |}.

(** * Facts about the embedding *)

(** ** The insertion-ordered map *)

Section JsMapFacts.
Context {V : Type}.
Implicit Types (m : JsMap.t V) (k : string) (v : V).

Lemma get_set_eq k v m : JsMap.get k (JsMap.set k v m) = Some v.
Proof.
  induction m as [|[k' v'] m IH]; simpl.
  - unfold JsMap.get; simpl. by rewrite String.eqb_refl.
  - destruct (String.eqb_spec k k') as [->|Hne]; unfold JsMap.get in *; simpl.
    + by rewrite String.eqb_refl.
    + destruct (String.eqb_spec k k'); [done|]. exact IH.
Qed.

Lemma get_set_ne k k' v m : k ≠ k' → JsMap.get k' (JsMap.set k v m) = JsMap.get k' m.
Proof.
  intros Hne. induction m as [|[k0 v0] m IH]; unfold JsMap.get in *; simpl.
  - destruct (String.eqb_spec k' k); [congruence|done].
  - destruct (String.eqb_spec k k0) as [->|Hk]; simpl.
    + destruct (String.eqb_spec k' k0); [congruence|done].
    + destruct (String.eqb_spec k' k0); [done|exact IH].
Qed.

Lemma get_delete_eq k m : JsMap.get k (JsMap.delete k m) = None.
Proof.
  induction m as [|[k0 v0] m IH]; unfold JsMap.get in *; simpl; [done|].
  destruct (String.eqb_spec k k0) as [->|Hk]; simpl; [exact IH|].
  destruct (String.eqb_spec k k0); [done|exact IH].
Qed.

Lemma get_delete_ne k k' m : k ≠ k' → JsMap.get k' (JsMap.delete k m) = JsMap.get k' m.
Proof.
  intros Hne. induction m as [|[k0 v0] m IH]; unfold JsMap.get in *; simpl; [done|].
  destruct (String.eqb_spec k k0) as [->|Hk]; simpl.
  - destruct (String.eqb_spec k' k0); [congruence|exact IH].
  - destruct (String.eqb_spec k' k0); [done|exact IH].
Qed.



Lemma get_in_values k v m : JsMap.get k m = Some v → v ∈ JsMap.values m.
Proof.
  induction m as [|[k0 v0] m IH]; unfold JsMap.get, JsMap.values in *; simpl; [done|].
  destruct (String.eqb_spec k k0).
  - intros [= ->]. apply list_elem_of_here.
  - intros H. apply list_elem_of_further. by apply IH.
Qed.
End JsMapFacts.

(** ** Rooms *)

Lemma elem_of_in_room (s room : string) (h : Hub) :
  s ∈ in_room room h ↔ ∃ sk, sockets h !! s = Some sk ∧ room ∈ sockRooms sk.
Proof.
  unfold in_room. rewrite elem_of_dom. split.
  - intros [sk Hsk]. apply map_lookup_filter_Some in Hsk as [Hs Hr]. eauto.
  - intros (sk & Hs & Hr). exists sk. by apply map_lookup_filter_Some.
Qed.

Lemma in_room_live (room : string) (h : Hub) : in_room room h ⊆ dom (sockets h).
Proof.
  intros s Hs. apply elem_of_in_room in Hs as (sk & Hs & _).
  apply elem_of_dom. eauto.
Qed.

Lemma valid_id_not_room (t : string) :
  valid_id t = true →
  t ≠ EmptyString ∧ String.prefix "user:" t = false ∧ String.prefix "chat:" t = false.
Proof.
  unfold valid_id. rewrite !andb_true_iff, !negb_true_iff.
  intros [[H1 H2] H3]. repeat split; try done.
  intros ->. discriminate.
Qed.

(** In such a namespace the room named after a live socket's id holds
    that socket alone. *)
Lemma own_room (h : Hub) (t : string) :
  adapter_ok h → is_Some (sockets h !! t) → in_room t h = {[t]}.
Proof.
  intros Hok [sk Ht]. apply set_eq. intros s.
  rewrite elem_of_in_room, elem_of_singleton. split.
  - intros (sk' & Hs & Hr).
    destruct (Hok _ _ Hs) as (_ & _ & Hrooms).
    destruct (Hok _ _ Ht) as (Hv & _ & _).
    apply valid_id_not_room in Hv as (_ & Hu & Hc).
    destruct (Hrooms _ Hr) as [->|[Hp|Hp]]; [done| |]; congruence.
  - intros ->. exists sk. split; [done|]. by destruct (Hok _ _ Ht) as (_ & ? & _).
Qed.


Lemma prefix_append (p s : string) : String.prefix p (p +:+ s) = true.
Proof.
  induction p as [|c p IH]; simpl; [by destruct s|].
  destruct (Ascii.ascii_dec c c); [exact IH|done].
Qed.

(** ** Properties of the hub that a handler keeps *)

Section Preserves.
Context (I : Hub → Prop).

Lemma preserves_bind {A B : Type} (m : M A) (k : A → M B) :
  preserves I m → (∀ a, preserves I (k a)) → preserves I (m ≫= k).
Proof.
  intros Hm Hk h Hh. specialize (Hm h Hh).
  unfold mbind, M_bind, bind, hub_of in *.
  destruct (m h) as [[h1 out1] [a|e]]; simpl in *; [|done].
  specialize (Hk a h1 Hm). unfold hub_of in Hk.
  by destruct (k a h1) as [[h2 out2] r].
Qed.

Lemma preserves_try {A : Type} (body : M A) (handler : Exn → M A) :
  preserves I body → (∀ e, preserves I (handler e)) →
  preserves I (try_catch body handler).
Proof.
  intros Hm Hk h Hh. specialize (Hm h Hh).
  unfold try_catch, hub_of in *.
  destruct (body h) as [[h1 out1] [a|e]]; simpl in *; [done|].
  specialize (Hk e h1 Hm). unfold hub_of in Hk.
  by destruct (handler e h1) as [[h2 out2] r].
Qed.

Lemma preserves_ret {A : Type} (a : A) : preserves I (mret a).
Proof. by intros h Hh. Qed.

Lemma preserves_lift {A : Type} (r : Res A) : preserves I (lift r).
Proof. by intros h Hh. Qed.

Lemma preserves_gets {A : Type} (f : Hub → A) : preserves I (gets f).
Proof. by intros h Hh. Qed.

Lemma preserves_tell (e : Effect) : preserves I (tell e).
Proof. by intros h Hh. Qed.

Lemma preserves_io_to_emit room event payload :
  preserves I (io_to_emit room event payload).
Proof. by intros h Hh. Qed.

Lemma preserves_socket_to_emit id room event payload :
  preserves I (socket_to_emit id room event payload).
Proof. by intros h Hh. Qed.

Lemma preserves_socket_broadcast_emit id event payload :
  preserves I (socket_broadcast_emit id event payload).
Proof. by intros h Hh. Qed.

Lemma preserves_socket_emit id event payload :
  preserves I (socket_emit id event payload).
Proof. by intros h Hh. Qed.

Lemma preserves_logActivity uid action now meta :
  preserves I (logActivity uid action now meta).
Proof. by intros h Hh. Qed.

Lemma preserves_logger_error message e : preserves I (logger_error message e).
Proof. by intros h Hh. Qed.

Lemma preserves_findByIdAndUpdate env uid update :
  preserves I (findByIdAndUpdate env uid update).
Proof. unfold findByIdAndUpdate. by destruct (storeFails env); intros h Hh. Qed.

Lemma preserves_match_found {A : Type} (o : option string) (f : string → M A) (g : M A) :
  (∀ t, preserves I (f t)) → preserves I g →
  preserves I (match found o with Some t => f t | None => g end).
Proof. intros Hf Hg. by destruct (found o). Qed.
End Preserves.

Ltac preserves_step :=
  first
    [ apply preserves_bind; [|intros ?]
    | apply preserves_try; [|intros ?]
    | apply preserves_ret
    | apply preserves_lift
    | apply preserves_gets
    | apply preserves_tell
    | apply preserves_io_to_emit
    | apply preserves_socket_to_emit
    | apply preserves_socket_broadcast_emit
    | apply preserves_socket_emit
    | apply preserves_logActivity
    | apply preserves_logger_error
    | apply preserves_findByIdAndUpdate
    | apply preserves_match_found; [intros ?|] ].

(** A property kept by joining and leaving chat rooms and by a status
    update is kept by every event handler of a socket: these are the
    only places where a handler writes to the hub. *)
Lemma on_event_preserves (I : Hub → Prop) (id : string) :
  (∀ room, preserves I (socket_join id ("chat:" +:+ room))) →
  (∀ room, preserves I (socket_leave id ("chat:" +:+ room))) →
  (∀ st, preserves I (update_in_memory id st)) →
  ∀ ev env uid uname data, preserves I (on_event ev env id uid uname data).
Proof.
  intros Hjoin Hleave Hstatus ev env uid uname data.
  destruct ev; simpl;
    unfold on_user_status, on_chat_join, on_chat_leave, on_message_send,
      on_message_edit, on_message_delete, on_message_react, on_typing_start,
      on_typing_stop, on_typing, on_call_start, on_call_accept, on_call_decline,
      on_call_end, on_webrtc_offer, on_webrtc_answer, on_webrtc_ice_candidate,
      on_webrtc;
    repeat (first [ apply Hjoin | apply Hleave | apply Hstatus | preserves_step ]).
Qed.

(** ** What registration and removal do to the hub *)

Lemma on_connection_hub (env : Env) (id uid uname : string) (h : Hub) :
  hub_of (on_connection env id uid uname (socket_open id uid uname h)) =
    if storeFails env then with_sockets (delete id) h
    else registered env id uid uname h.
Proof.
  unfold on_connection, try_catch, findByIdAndUpdate, hub_of.
  destruct (storeFails env); simpl.
  - unfold with_sockets; simpl. by rewrite delete_insert_eq.
  - unfold registered, with_sockets; simpl.
    rewrite lookup_insert_eq. by rewrite insert_insert_eq.
Qed.

(** The hub a disconnect handler leaves. *)
Lemma on_disconnect_hub (env : Env) (id uid uname reason : string) (h : Hub) :
  hub_of (on_disconnect env id uid uname reason h) =
    if storeFails env then h
    else with_userSockets (delete uid) (with_connectedUsers (JsMap.delete id) h).
Proof.
  unfold on_disconnect, try_catch, findByIdAndUpdate, hub_of.
  by destruct (storeFails env).
Qed.

(** ** The invariant of the running server *)

Lemma hub_inv_initial : hub_inv ∅ initial.
Proof.
  split.
  - intros s [sk Hs]. done.
  - intros s [v Hs]. done.
  - intros u s Hs. done.
  - intros s info sk Hs. done.
  - intros s sk Hs. done.
  - intros s Hs. by apply elem_of_empty in Hs.
Qed.

Lemma hub_inv_join issued id room :
  preserves (hub_inv issued) (socket_join id ("chat:" +:+ room)).
Proof.
  intros h [Hl Hr Hi Ho Ha Hok]. unfold socket_join, modify, hub_of, with_sockets; simpl.
  destruct (sockets h !! id) as [sk|] eqn:Hid; [|by split].
  split; simpl; try done.
  - intros s [sk' Hs]. apply Hl.
    destruct (decide (id = s)) as [->|Hne]; [by eauto|].
    rewrite lookup_insert_ne in Hs by done. eauto.
  - intros s info sk' Hs Hsk.
    destruct (decide (id = s)) as [->|Hne].
    + rewrite lookup_insert_eq in Hsk. injection Hsk as <-. simpl. by eapply Ho.
    + rewrite lookup_insert_ne in Hsk by done. by eapply Ho.
  - intros s sk' Hs. simpl in Hs.
    destruct (decide (id = s)) as [->|Hne].
    + rewrite lookup_insert_eq in Hs. injection Hs as <-. simpl.
      destruct (Ha _ _ Hid) as (Hv & Hown & Hrooms).
      split; [done|]. split; [set_solver|].
      intros r Hr'. apply elem_of_union in Hr' as [Hr'|Hr'].
      * apply elem_of_singleton in Hr' as ->. right; right. apply prefix_append.
      * by apply Hrooms.
    + rewrite lookup_insert_ne in Hs by done. by apply Ha.
Qed.

Lemma hub_inv_leave issued id room :
  preserves (hub_inv issued) (socket_leave id ("chat:" +:+ room)).
Proof.
  intros h [Hl Hr Hi Ho Ha Hok]. unfold socket_leave, modify, hub_of, with_sockets; simpl.
  destruct (sockets h !! id) as [sk|] eqn:Hid; [|by split].
  split; simpl; try done.
  - intros s [sk' Hs]. apply Hl.
    destruct (decide (id = s)) as [->|Hne]; [by eauto|].
    rewrite lookup_insert_ne in Hs by done. eauto.
  - intros s info sk' Hs Hsk.
    destruct (decide (id = s)) as [->|Hne].
    + rewrite lookup_insert_eq in Hsk. injection Hsk as <-. simpl. by eapply Ho.
    + rewrite lookup_insert_ne in Hsk by done. by eapply Ho.
  - intros s sk' Hs. simpl in Hs.
    destruct (decide (id = s)) as [->|Hne].
    + rewrite lookup_insert_eq in Hs. injection Hs as <-. simpl.
      destruct (Ha _ _ Hid) as (Hv & Hown & Hrooms).
      split; [done|]. split.
      * apply elem_of_difference. split; [done|].
        rewrite elem_of_singleton. intros ->.
        apply valid_id_not_room in Hv as (_ & _ & Hc).
        by rewrite prefix_append in Hc.
      * intros r Hr'. apply elem_of_difference in Hr' as [Hr' _]. by apply Hrooms.
    + rewrite lookup_insert_ne in Hs by done. by apply Ha.
Qed.

Lemma hub_inv_status issued id st :
  preserves (hub_inv issued) (update_in_memory id st).
Proof.
  intros h [Hl Hr Hi Ho Ha Hok].
  unfold update_in_memory, mbind, M_bind, bind, gets, modify, hub_of; simpl.
  destruct (JsMap.get id (connectedUsers h)) as [u|] eqn:Hid; simpl; [|by split].
  split; simpl; try done.
  - intros s Hs. apply Hr.
    destruct (decide (id = s)) as [->|Hne]; [by rewrite Hid; eauto|].
    by rewrite get_set_ne in Hs.
  - intros u' s Hs. destruct (Hi _ _ Hs) as (info & Hinfo & Hu).
    destruct (decide (id = s)) as [->|Hne].
    + exists (with_status st u). rewrite get_set_eq. split; [done|]. simpl. congruence.
    + exists info. by rewrite get_set_ne.
  - intros s info sk Hs Hsk.
    destruct (decide (id = s)) as [->|Hne].
    + rewrite get_set_eq in Hs. injection Hs as <-. simpl. by eapply Ho.
    + rewrite get_set_ne in Hs by done. by eapply Ho.
Qed.

Lemma hub_inv_client issued ev env id uid uname data :
  preserves (hub_inv issued) (on_event ev env id uid uname data).
Proof.
  apply on_event_preserves;
    auto using hub_inv_join, hub_inv_leave, hub_inv_status.
Qed.

Lemma hub_inv_connection issued env id uid uname h :
  valid_id id = true → id ∉ issued → hub_inv issued h →
  hub_inv ({[id]} ∪ issued)
    (hub_of (on_connection env id uid uname (socket_open id uid uname h))).
Proof.
  intros Hv Hfresh [Hl Hr Hi Ho Ha Hok]. rewrite on_connection_hub.
  destruct (storeFails env).
  - split; simpl; try done.
    + intros s [sk Hs]. apply lookup_delete_Some in Hs as [_ Hs].
      apply elem_of_union_r, Hl. eauto.
    + intros s Hs. by apply elem_of_union_r, Hr.
    + intros s info sk Hs Hsk. apply lookup_delete_Some in Hsk as [_ Hsk]. by eapply Ho.
    + intros s sk Hs. simpl in Hs. apply lookup_delete_Some in Hs as [_ Hs]. by apply Ha.
    + intros s Hs. apply elem_of_union in Hs as [Hs|Hs]; [|by apply Hok].
      by apply elem_of_singleton in Hs as ->.
  - assert (Hnew : JsMap.get id (connectedUsers h) = None).
    { destruct (JsMap.get id (connectedUsers h)) eqn:E; [|done].
      destruct Hfresh. apply Hr. by rewrite E. }
    split; simpl.
    + intros s [sk Hs]. destruct (decide (id = s)) as [->|Hne]; [set_solver|].
      rewrite lookup_insert_ne in Hs by done. apply elem_of_union_r, Hl. eauto.
    + intros s Hs. destruct (decide (id = s)) as [->|Hne]; [set_solver|].
      rewrite get_set_ne in Hs by done. by apply elem_of_union_r, Hr.
    + intros u s Hs. destruct (decide (uid = u)) as [->|Hne].
      * rewrite lookup_insert_eq in Hs. injection Hs as <-.
        rewrite get_set_eq. eauto.
      * rewrite lookup_insert_ne in Hs by done.
        destruct (Hi _ _ Hs) as (info & Hinfo & Hu).
        exists info. split; [|done]. rewrite get_set_ne; [done|].
        intros ->. by rewrite Hnew in Hinfo.
    + intros s info sk Hs Hsk. destruct (decide (id = s)) as [->|Hne].
      * rewrite get_set_eq in Hs. rewrite lookup_insert_eq in Hsk.
        injection Hs as <-. by injection Hsk as <-.
      * rewrite get_set_ne in Hs by done. rewrite lookup_insert_ne in Hsk by done.
        by eapply Ho.
    + intros s sk Hs. simpl in Hs. destruct (decide (id = s)) as [->|Hne].
      * rewrite lookup_insert_eq in Hs. injection Hs as <-. simpl.
        split; [done|]. split; [set_solver|].
        intros r Hr'. apply elem_of_union in Hr' as [Hr'|Hr'];
          apply elem_of_singleton in Hr' as ->; [|by left].
        right; left. apply prefix_append.
      * rewrite lookup_insert_ne in Hs by done. by apply Ha.
    + intros s Hs. apply elem_of_union in Hs as [Hs|Hs]; [|by apply Hok].
      by apply elem_of_singleton in Hs as ->.
Qed.

Lemma hub_inv_disconnect issued env id sk reason h :
  sockets h !! id = Some sk → hub_inv issued h →
  hub_inv issued
    (hub_of (on_disconnect env id (sockUserId sk) (sockUsername sk) reason
               (with_sockets (delete id) h))).
Proof.
  intros Hid [Hl Hr Hi Ho Ha Hok]. rewrite on_disconnect_hub.
  destruct (storeFails env); split; simpl; try done.
  - intros s [sk' Hs]. apply lookup_delete_Some in Hs as [_ Hs]. apply Hl. eauto.
  - intros s info sk' Hs Hsk. apply lookup_delete_Some in Hsk as [_ Hsk]. by eapply Ho.
  - intros s sk' Hs. simpl in Hs. apply lookup_delete_Some in Hs as [_ Hs]. by apply Ha.
  - intros s [sk' Hs]. apply lookup_delete_Some in Hs as [_ Hs]. apply Hl. eauto.
  - intros s Hs. apply Hr. destruct (decide (id = s)) as [->|Hne].
    + rewrite get_delete_eq in Hs. by destruct Hs.
    + by rewrite get_delete_ne in Hs.
  - intros u s Hs. apply lookup_delete_Some in Hs as [Hne Hs].
    destruct (Hi _ _ Hs) as (info & Hinfo & Hu).
    exists info. split; [|done]. rewrite get_delete_ne; [done|].
    intros ->. apply Hne. rewrite <- Hu. symmetry. by eapply Ho.
  - intros s info sk' Hs Hsk. apply lookup_delete_Some in Hsk as [Hne Hsk].
    rewrite get_delete_ne in Hs by done. by eapply Ho.
  - intros s sk' Hs. simpl in Hs. apply lookup_delete_Some in Hs as [_ Hs]. by apply Ha.
Qed.

Lemma hub_inv_step issued h s issued' h' out :
  hub_inv issued h → step issued h s = Some (issued', h', out) → hub_inv issued' h'.
Proof.
  intros Hinv Hstep. destruct s as [id uid uname env|id ev data env|id reason env]; simpl in Hstep.
  - destruct (valid_id id) eqn:Hv; [|done]. simpl in Hstep.
    case_bool_decide as Hfresh; [|done]. injection Hstep as <- <- <-.
    by apply hub_inv_connection.
  - destruct (sockets h !! id) as [sk|] eqn:Hid; [|done]. injection Hstep as <- <- <-.
    by apply hub_inv_client.
  - destruct (sockets h !! id) as [sk|] eqn:Hid; [|done]. injection Hstep as <- <- <-.
    by apply hub_inv_disconnect.
Qed.

Lemma hub_inv_run_from tr : ∀ issued h out issued' h' out',
  hub_inv issued h → run_from issued h out tr = Some (issued', h', out') →
  hub_inv issued' h'.
Proof.
  induction tr as [|s tr IH]; intros issued h out issued' h' out' Hinv Hrun; simpl in Hrun.
  - by injection Hrun as <- <- <-.
  - destruct (step issued h s) as [[[issued1 h1] out1]|] eqn:Hstep; [|done].
    eapply IH; [|exact Hrun]. by eapply hub_inv_step.
Qed.

(** Every hub the server can reach satisfies the invariant. *)
Lemma hub_inv_run tr h : run tr = Some h → ∃ issued, hub_inv issued h.
Proof.
  unfold run. destruct (run_from ∅ initial [] tr) as [[[issued h'] out]|] eqn:Hrun; [|done].
  intros [= <-]. exists issued. eapply hub_inv_run_from; [apply hub_inv_initial|exact Hrun].
Qed.

(** ** Payloads *)

Lemma prop_present data k : absent data = false → ∃ v, prop data k = Ok v.
Proof. destruct data; simpl; try done; eauto. Qed.

Lemma prop_absent data k : absent data = true → ∃ e, prop data k = Throw e.
Proof. destruct data; simpl; try done; eauto. Qed.



Ltac unfold_handler :=
  unfold on_event, on_user_status, on_chat_join, on_chat_leave, on_message_send,
    on_message_edit, on_message_delete, on_message_react, on_typing_start,
    on_typing_stop, on_typing, on_call_start, on_call_accept, on_call_decline,
    on_call_end, on_webrtc_offer, on_webrtc_answer, on_webrtc_ice_candidate,
    on_webrtc, on_connection, on_disconnect, sendToUser, update_in_memory,
    try_catch, mbind, M_bind, bind, mret, M_ret, ret, lift, gets, modify, tell,
    io_to_emit, socket_to_emit, socket_broadcast_emit, socket_emit,
    socket_join, socket_leave, socket_disconnect, logActivity, logger_error,
    findByIdAndUpdate, hub_of, effects_of, result_of.

(** ** Sockets that went away *)

Lemma gone_client s ev env id uid uname data :
  preserves (λ h, sockets h !! s = None) (on_event ev env id uid uname data).
Proof.
  apply on_event_preserves.
  - intros room h Hs. unfold_handler; simpl.
    destruct (sockets h !! id) eqn:Hid; [|done].
    rewrite lookup_insert_ne; [done|congruence].
  - intros room h Hs. unfold_handler; simpl.
    destruct (sockets h !! id) eqn:Hid; [|done].
    rewrite lookup_insert_ne; [done|congruence].
  - intros st h Hs. unfold_handler; simpl.
    by destruct (JsMap.get id (connectedUsers h)).
Qed.

Lemma gone_step issued h st issued' h' out s :
  s ∈ issued → sockets h !! s = None →
  step issued h st = Some (issued', h', out) →
  s ∈ issued' ∧ sockets h' !! s = None.
Proof.
  intros Hin Hs Hstep.
  destruct st as [id uid uname env|id ev data env|id reason env]; simpl in Hstep.
  - destruct (valid_id id); [|done]. simpl in Hstep.
    case_bool_decide as Hfresh; [|done]. injection Hstep as <- <- <-.
    split; [set_solver|]. rewrite on_connection_hub.
    destruct (storeFails env); simpl.
    + by apply lookup_delete_None; right.
    + rewrite lookup_insert_ne; [done|]. intros ->. done.
  - destruct (sockets h !! id) as [sk|] eqn:Hid; [|done]. injection Hstep as <- <- <-.
    split; [done|]. by apply gone_client.
  - destruct (sockets h !! id) as [sk|] eqn:Hid; [|done]. injection Hstep as <- <- <-.
    split; [done|]. rewrite on_disconnect_hub.
    destruct (storeFails env); simpl; by apply lookup_delete_None; right.
Qed.



(** ** Recipient sets *)

Lemma only_sender (D : gset string) (id : string) : D ∩ {[id]} ⊆ {[id]}.
Proof. apply intersection_subseteq_r. Qed.



(** ** Index entries and live sessions *)





(** ** Joining and leaving a chat room *)

Lemma chat_join_joins env id uid uname data chatId R h :
  is_Some (sockets h !! id) →
  prop data "chatId" = Ok chatId → to_string chatId = Ok R →
  id ∈ joined R (hub_of (on_event ChatJoin env id uid uname data h)).
Proof.
  intros [sk Hid] Hchat HR. unfold joined. apply elem_of_in_room.
  unfold_handler. rewrite Hchat, HR. simpl. rewrite Hid.
  eexists. split; [apply lookup_insert_eq|]. simpl.
  apply elem_of_union_l. by apply elem_of_singleton.
Qed.

Lemma chat_leave_leaves env id uid uname data chatId R h :
  prop data "chatId" = Ok chatId → to_string chatId = Ok R →
  id ∉ joined R (hub_of (on_event ChatLeave env id uid uname data h)).
Proof.
  intros Hchat HR. unfold joined. rewrite elem_of_in_room.
  unfold_handler. rewrite Hchat, HR. simpl. intros (sk' & Hs & Hroom).
  destruct (sockets h !! id) as [sk|] eqn:Hid.
  - simpl in Hs. rewrite lookup_insert_eq in Hs. injection Hs as <-. simpl in Hroom.
    apply elem_of_difference in Hroom as [_ Hroom]. apply Hroom. by apply elem_of_singleton.
  - simpl in Hs. congruence.
Qed.

(** ** The HTTP gate next to the connection gate *)

(** [authenticateToken] tells the unknown account from the deactivated
    one, and logs neither; the same holds for the missing token. *)
Lemma authenticateToken_unknown_and_deactivated authHeader t decoded wanted doc :
  bearer authHeader = Some t → t ≠ EmptyString →
  decoded_userId decoded = inr wanted →
  isActive doc = false →
  authenticateToken authHeader (inr decoded) (inr None) =
    ([], Respond 401 "Access denied" "User not found")
  ∧ authenticateToken authHeader (inr decoded) (inr (Some doc)) =
      ([], Respond 401 "Access denied" "Account is deactivated").
Proof.
  intros Hb Ht Hd Ha. unfold authenticateToken. rewrite Hb, Hd, Ha.
  by destruct t.
Qed.

Lemma authenticateToken_missing authHeader verified account :
  bearer authHeader = None ∨ bearer authHeader = Some EmptyString →
  authenticateToken authHeader verified account =
    ([], Respond 401 "Access denied" "No authentication token provided").
Proof. intros [Hb|Hb]; unfold authenticateToken; by rewrite Hb. Qed.

(** An expired token is reported as an invalid one: the test for
    [JsonWebTokenError] comes first and holds for its subclasses. *)
Lemma authenticateToken_expired error :
  thrown_class error = TokenExpiredError →
  authenticateToken_catch error =
    ([Log "warn" "Invalid JWT token:" [("error", VStr (thrown_message error))]],
     Respond 401 "Access denied" "Invalid authentication token").
Proof. intros Hc. unfold authenticateToken_catch. by rewrite Hc. Qed.

(** * The claims *)


(** C2.  Whatever sequence of registrations and removals the server has
    gone through, every entry of [userSockets] names a connection that
    [connectedUsers] holds. *)
Theorem index_never_dangles (tr : list Step) (h : Hub) (u s : string) :
  run tr = Some h →
  userSockets h !! u = Some s →
  JsMap.has s (connectedUsers h) = true.
Proof.
  intros Hrun Hu. destruct (hub_inv_run _ _ Hrun) as [issued Hinv].
  destruct (inv_index _ _ Hinv _ _ Hu) as (info & Hinfo & _).
  unfold JsMap.has. by rewrite Hinfo.
Qed.


(** C4, as amended.  An attempt that falls under one of the four causes
    is rejected under the name [reported] gives: a missing credential and
    an invalid one each have a name of their own, an unknown and a
    deactivated account share [Invalid user].  The rejection writes one
    security record, whose [socketId] field is the connection id; no
    field of it is taken from the credential, so that any other
    credential drawing the same answers leaves the same record. *)
Theorem rejections_are_named_and_logged
    (now : Z) (id : string) (a : Attempt) (c : Cause) :
  cause_of a = Some c →
  (authenticate now id a).2 = Reject (reported c)
  ∧ (∃ message fields,
       (authenticate now id a).1 = [Log "warn" message fields]
       ∧ assoc "socketId" fields = Some (VStr id))
  ∧ (∀ t, truthy t = truthy (token a) →
       authenticate now id (with_token t a) = authenticate now id a)
  ∧ reported MissingCredential ≠ reported InvalidCredential
  ∧ reported MissingCredential ≠ reported AccountNotFound
  ∧ reported InvalidCredential ≠ reported AccountNotFound
  ∧ reported AccountNotFound = reported AccountDeactivated.
Proof.
  intros Hc. split; [|split; [|split; [|done]]].
  - unfold cause_of, authenticate, authentication_failed in *.
    destruct (truthy (token a)); simpl in *; [|by injection Hc as <-].
    destruct (verified a) as [m|decoded]; [by injection Hc as <-|].
    destruct (decoded_userId decoded) as [m|wanted]; [done|].
    destruct (account a) as [m|[doc|]]; [done| |by injection Hc as <-].
    destruct (isActive doc); [done|by injection Hc as <-].
  - unfold cause_of, authenticate, authentication_failed, securityRecord in *.
    destruct (truthy (token a)); simpl in *; [|by eauto].
    destruct (verified a) as [m|decoded]; [by eauto|].
    destruct (decoded_userId decoded) as [m|wanted]; [done|].
    destruct (account a) as [m|[doc|]]; [done| |by eauto].
    destruct (isActive doc); [done|by eauto].
  - intros t Ht. unfold authenticate, with_token; simpl. by rewrite Ht.
Qed.




(** C8.  A [message:edit], [message:delete] or [message:react] leaves
    the registry, the index and the room membership as they were and
    reaches no session but the sender's; with a payload object at hand it
    emits nothing whatsoever. *)
Theorem stubbed_events_reach_nobody
    (ev : ClientEvent) (env : Env) (id uid uname : string) (data : Json) (h : Hub) :
  ev ∈ stubbed →
  hub_of (on_event ev env id uid uname data h) = h
  ∧ (∀ recipients event payload,
       Emit recipients event payload ∈ effects_of (on_event ev env id uid uname data h) →
       recipients ⊆ {[id]} ∧ event = "error")
  ∧ (absent data = false →
       emitted (effects_of (on_event ev env id uid uname data h)) = []).
Proof.
  intros Hev.
  assert (Hcases : ev = MessageEdit ∨ ev = MessageDelete ∨ ev = MessageReact).
  { unfold stubbed in Hev. rewrite !elem_of_cons, elem_of_nil in Hev. tauto. }
  destruct (absent data) eqn:Habsent.
  - destruct (prop_absent data "messageId" Habsent) as [e He].
    destruct Hcases as [-> | [-> | ->]]; unfold_handler; rewrite He; simpl;
      (split; [done|split; [|done]]);
      intros recipients event payload Hin;
      rewrite !elem_of_cons, elem_of_nil in Hin;
      (destruct Hin as [Hin|[Hin|Hin]];
       [discriminate Hin|injection Hin as -> -> ->|destruct Hin]);
      (split; [apply only_sender|done]).
  - destruct (prop_present data "messageId" Habsent) as [messageId HmessageId].
    destruct (prop_present data "content" Habsent) as [content Hcontent].
    destruct (prop_present data "emoji" Habsent) as [emoji Hemoji].
    destruct (prop_present data "action" Habsent) as [action Haction].
    destruct Hcases as [-> | [-> | ->]]; unfold_handler;
      rewrite ?HmessageId, ?Hcontent, ?Hemoji, ?Haction; simpl;
      (split; [done|split; [|done]]);
      intros recipients event payload Hin;
      rewrite !elem_of_cons, elem_of_nil in Hin;
      (destruct Hin as [Hin|Hin]; [discriminate Hin|destruct Hin]).
Qed.



(** * The claims on sample runs *)

(** The specification's scenario before Bob leaves: Alice and Bob are
    both in ["room1"], Alice says hi, and the message goes to both. *)
Example room1_hears_alice :
  ∃ payload record,
    effects_of (on_event MessageSend env0 "sA" "A" "alice" hi
                  (hub_after (alice_and_bob ++
                     [Client "sA" ChatJoin in_room1 env0;
                      Client "sB" ChatJoin in_room1 env0]))) =
      [Emit {["sA"; "sB"]} "message:new" payload; record].
Proof. do 2 eexists. vm_compute. reflexivity. Qed.


(** C2 on a run where Alice has connected twice. *)
Lemma index_never_dangles_witness :
  JsMap.has "sA2" (connectedUsers (hub_after alice_twice)) = true.
Proof.
  apply (index_never_dangles alice_twice (hub_after alice_twice) "A" "sA2");
    vm_compute; reflexivity.
Defined.


(** What C3 leaves to the state of the run: after a disconnect that the
    account store did not let clean up, Bob's entry is still in the
    index, and an offer to Bob is addressed to a session that is gone. *)
Example offer_to_a_session_that_is_gone :
  userSockets (hub_after bob_gone_uncleaned) !! "B" = Some "sB"
  ∧ effects_of (on_event WebrtcOffer env0 "sA" "A" "alice" offer_to_bob
                  (hub_after bob_gone_uncleaned)) =
      [Emit ∅ "webrtc:offer"
         (VObj [("callId", VWire (JStr "c1")); ("offer", VWire (JStr "v=0"));
                ("fromUserId", VStr "A"); ("fromUsername", VStr "alice")])].
Proof. split; vm_compute; reflexivity. Qed.

(** C4, the claim as stated fails: the unknown and the deactivated
    account are two causes, and the caller is told the same thing. *)
Lemma unknown_and_deactivated_share_a_name :
  cause_of attempt_unknown = Some AccountNotFound
  ∧ cause_of attempt_deactivated = Some AccountDeactivated
  ∧ (authenticate 0 "s1" attempt_unknown).2 = (authenticate 0 "s1" attempt_deactivated).2.
Proof. repeat split. Qed.

(** C4 as amended, on the deactivated account. *)
Lemma rejections_are_named_and_logged_witness :
  (authenticate 0 "s1" attempt_deactivated).2 = Reject "Invalid user".
Proof.
  exact (proj1 (rejections_are_named_and_logged 0 "s1" attempt_deactivated
                  AccountDeactivated eq_refl)).
Defined.







(** C8 on an edit. *)
Lemma stubbed_events_reach_nobody_witness :
  hub_of (on_event MessageEdit env0 "sA" "A" "alice"
            (JObj [("messageId", JStr "m1"); ("content", JStr "fixed")])
            (hub_after alice_and_bob)) =
    hub_after alice_and_bob.
Proof.
  refine (proj1 (stubbed_events_reach_nobody MessageEdit env0 "sA" "A" "alice" _
                   (hub_after alice_and_bob) _)).
  apply list_elem_of_here.
Defined.



(** * Further properties of the hub *)

(** ** A small logic for what handlers emit *)

Section Triple.
Context (I : Hub → Prop) (P : Effect → Prop).

Lemma triple_bind {A B : Type} (m : M A) (k : A → M B) :
  triple I P m → (∀ a, triple I P (k a)) → triple I P (m ≫= k).
Proof.
  intros Hm Hk h Hh. destruct (Hm h Hh) as [Hi Hp].
  unfold mbind, M_bind, bind, hub_of, effects_of in *.
  destruct (m h) as [[h1 out1] [a|e]]; simpl in *; [|done].
  destruct (Hk a h1 Hi) as [Hi' Hp']. unfold hub_of, effects_of in *.
  destruct (k a h1) as [[h2 out2] r]; simpl in *.
  split; [done|]. by apply Forall_app.
Qed.

Lemma triple_try {A : Type} (body : M A) (handler : Exn → M A) :
  triple I P body → (∀ e, triple I P (handler e)) → triple I P (try_catch body handler).
Proof.
  intros Hm Hk h Hh. destruct (Hm h Hh) as [Hi Hp].
  unfold try_catch, hub_of, effects_of in *.
  destruct (body h) as [[h1 out1] [a|e]]; simpl in *; [done|].
  destruct (Hk e h1 Hi) as [Hi' Hp']. unfold hub_of, effects_of in *.
  destruct (handler e h1) as [[h2 out2] r]; simpl in *.
  split; [done|]. by apply Forall_app.
Qed.

Lemma triple_ret {A : Type} (a : A) : triple I P (mret a).
Proof. intros h Hh. split; [done|constructor]. Qed.

Lemma triple_lift {A : Type} (r : Res A) : triple I P (lift r).
Proof. intros h Hh. split; [done|constructor]. Qed.

Lemma triple_gets {A : Type} (f : Hub → A) : triple I P (gets f).
Proof. intros h Hh. split; [done|constructor]. Qed.

Lemma triple_modify (f : Hub → Hub) : (∀ h, I h → I (f h)) → triple I P (modify f).
Proof. intros Hf h Hh. split; [by apply Hf|constructor]. Qed.

Lemma triple_tell (e : Effect) : P e → triple I P (tell e).
Proof. intros He h Hh. split; [done|]. by repeat constructor. Qed.

Lemma triple_store env uid update :
  P (StoreUpdate uid update) → triple I P (findByIdAndUpdate env uid update).
Proof.
  intros He. unfold findByIdAndUpdate. destruct (storeFails env).
  - apply triple_lift.
  - by apply triple_tell.
Qed.

Lemma triple_io_to_emit room event payload :
  (∀ h, I h → P (Emit (in_room room h) event payload)) →
  triple I P (io_to_emit room event payload).
Proof. intros He h Hh. split; [done|]. repeat constructor. by apply He. Qed.

Lemma triple_socket_to_emit id room event payload :
  (∀ h, I h → P (Emit (in_room room h ∖ in_room id h) event payload)) →
  triple I P (socket_to_emit id room event payload).
Proof. intros He h Hh. split; [done|]. repeat constructor. by apply He. Qed.

Lemma triple_socket_broadcast_emit id event payload :
  (∀ h, I h → P (Emit (dom (sockets h) ∖ in_room id h) event payload)) →
  triple I P (socket_broadcast_emit id event payload).
Proof. intros He h Hh. split; [done|]. repeat constructor. by apply He. Qed.

Lemma triple_socket_emit id event payload :
  (∀ h, I h → P (Emit (dom (sockets h) ∩ {[id]}) event payload)) →
  triple I P (socket_emit id event payload).
Proof. intros He h Hh. split; [done|]. repeat constructor. by apply He. Qed.

Lemma triple_match_found {A : Type} (o : option string) (f : string → M A) (g : M A) :
  (∀ t, triple I P (f t)) → triple I P g →
  triple I P (match found o with Some t => f t | None => g end).
Proof. intros Hf Hg. by destruct (found o). Qed.

Lemma triple_match_option {A B : Type} (o : option B) (f : B → M A) (g : M A) :
  (∀ t, triple I P (f t)) → triple I P g →
  triple I P (match o with Some t => f t | None => g end).
Proof. intros Hf Hg. by destruct o. Qed.
End Triple.

(** One step through the text of a handler; what is left are the facts
    about the single statements: a write keeps [I], an effect has [P]. *)
Ltac triple_step :=
  first
    [ apply triple_bind; [|intros ?]
    | apply triple_try; [|intros ?]
    | apply triple_ret
    | apply triple_lift
    | apply triple_gets
    | apply triple_match_found; [intros ?|]
    | apply triple_match_option; [intros ?|]
    | apply triple_store
    | apply triple_tell
    | apply triple_io_to_emit; intros ? ?
    | apply triple_socket_to_emit; intros ? ?
    | apply triple_socket_broadcast_emit; intros ? ?
    | apply triple_socket_emit; intros ? ?
    | apply triple_modify; intros ? ? ].

Ltac unfold_to_statements :=
  unfold on_event, on_user_status, on_chat_join, on_chat_leave, on_message_send,
    on_message_edit, on_message_delete, on_message_react, on_typing_start,
    on_typing_stop, on_typing, on_call_start, on_call_accept, on_call_decline,
    on_call_end, on_webrtc_offer, on_webrtc_answer, on_webrtc_ice_candidate,
    on_webrtc, on_connection, on_disconnect, sendToUser, update_in_memory,
    socket_join, socket_leave, socket_disconnect, logActivity, logger_error.

Ltac through_handler := unfold_to_statements; repeat triple_step.

(** ** Nothing is delivered to a socket that is gone *)

Lemma not_live_not_in_room s room h : sockets h !! s = None → s ∉ in_room room h.
Proof. intros Hs Hin. apply elem_of_in_room in Hin as (sk & Hsk & _). congruence. Qed.

Lemma not_live_not_connected s h : sockets h !! s = None → s ∉ dom (sockets h).
Proof. intros Hs. by apply not_elem_of_dom. Qed.

Ltac gone_statement :=
  match goal with
  | |- _ ∉ recipients_of (Emit _ _ _) =>
      simpl;
      first
        [ by apply not_live_not_in_room
        | let Hin := fresh in
          intros Hin; apply elem_of_difference in Hin as [Hin _]; revert Hin;
          first [ by apply not_live_not_in_room | by apply not_live_not_connected ]
        | let Hin := fresh in
          intros Hin; apply elem_of_intersection in Hin as [Hin _]; revert Hin;
          by apply not_live_not_connected ]
  | |- _ ∉ recipients_of _ => simpl; apply not_elem_of_empty
  | |- sockets (with_sockets _ _) !! _ = None =>
      unfold with_sockets; simpl;
      first
        [ by apply lookup_delete_None; right
        | match goal with
          | |- context [match sockets ?h !! ?id with _ => _ end] =>
              destruct (sockets h !! id) eqn:?; [|done];
              rewrite lookup_insert_ne; [done|congruence]
          end ]
  | |- sockets _ !! _ = None => done
  end.

(** Whatever a handler emits passes by a socket that is not in the
    namespace, and the handler does not bring it back. *)
Lemma gone_event s ev env id uid uname data :
  triple (λ h, sockets h !! s = None) (λ e, s ∉ recipients_of e)
    (on_event ev env id uid uname data).
Proof. destruct ev; through_handler; gone_statement. Qed.

Lemma gone_connection s env id uid uname :
  triple (λ h, sockets h !! s = None) (λ e, s ∉ recipients_of e)
    (on_connection env id uid uname).
Proof. through_handler; gone_statement. Qed.

Lemma gone_disconnect s env id uid uname reason :
  triple (λ h, sockets h !! s = None) (λ e, s ∉ recipients_of e)
    (on_disconnect env id uid uname reason).
Proof. through_handler; gone_statement. Qed.

Lemma gone_step_effects issued h st issued' h' out s :
  s ∈ issued → sockets h !! s = None →
  step issued h st = Some (issued', h', out) →
  Forall (λ e, s ∉ recipients_of e) out.
Proof.
  intros Hin Hs Hstep.
  destruct st as [id uid uname env|id ev data env|id reason env]; simpl in Hstep.
  - destruct (valid_id id); [|done]. simpl in Hstep.
    case_bool_decide as Hfresh; [|done]. injection Hstep as <- <- <-.
    apply gone_connection. unfold socket_open, with_sockets; simpl.
    rewrite lookup_insert_ne; [done|]. by intros ->.
  - destruct (sockets h !! id) as [sk|] eqn:Hid; [|done]. injection Hstep as <- <- <-.
    by apply gone_event.
  - destruct (sockets h !! id) as [sk|] eqn:Hid; [|done]. injection Hstep as <- <- <-.
    apply gone_disconnect. simpl. by apply lookup_delete_None; right.
Qed.

(** The output of a run is the output so far followed by what its steps
    add. *)
Lemma run_from_output tr : ∀ issued h out,
  run_from issued h out tr =
    match run_from issued h [] tr with
    | Some (issued', h', added) => Some (issued', h', out ++ added)
    | None => None
    end.
Proof.
  induction tr as [|st tr IH]; intros issued h out; simpl.
  - by rewrite app_nil_r.
  - destruct (step issued h st) as [[[issued1 h1] out1]|]; [|done].
    rewrite (IH issued1 h1 (out ++ out1)), (IH issued1 h1 out1).
    destruct (run_from issued1 h1 [] tr) as [[[issued2 h2] out2]|]; [|done].
    by rewrite app_assoc.
Qed.

Lemma run_from_app tr1 tr2 : ∀ issued h out,
  run_from issued h out (tr1 ++ tr2) =
    match run_from issued h out tr1 with
    | Some (issued', h', out') => run_from issued' h' out' tr2
    | None => None
    end.
Proof.
  induction tr1 as [|st tr1 IH]; intros issued h out; simpl; [done|].
  destruct (step issued h st) as [[[issued1 h1] out1]|]; [|done]. apply IH.
Qed.

Lemma gone_run_from_effects tr : ∀ issued h issued' h' out s,
  s ∈ issued → sockets h !! s = None →
  run_from issued h [] tr = Some (issued', h', out) →
  Forall (λ e, s ∉ recipients_of e) out.
Proof.
  induction tr as [|st tr IH]; intros issued h issued' h' out s Hin Hs Hrun; simpl in Hrun.
  - injection Hrun as <- <- <-. constructor.
  - destruct (step issued h st) as [[[issued1 h1] out1]|] eqn:Hstep; [|done].
    simpl in Hrun. rewrite run_from_output in Hrun.
    destruct (run_from issued1 h1 [] tr) as [[[issued2 h2] out2]|] eqn:Hrest; [|done].
    injection Hrun as <- <- <-.
    destruct (gone_step _ _ _ _ _ _ _ Hin Hs Hstep) as [Hin1 Hs1].
    apply Forall_app. split.
    + eapply gone_step_effects; [exact Hin|exact Hs|exact Hstep].
    + eapply IH; [exact Hin1|exact Hs1|exact Hrest].
Qed.

(** X1.  From its disconnect on, a session is sent nothing: whatever the
    server emits in the disconnect step and in any step after it goes to
    other sockets. *)
Theorem nothing_after_disconnect
    (tr1 tr2 : list Step) (s reason : string) (env : Env) (before out : list Effect) :
  output tr1 = Some before →
  output (tr1 ++ Disconnect s reason env :: tr2) = Some out →
  ∃ after, out = before ++ after ∧ ∀ e, e ∈ after → s ∉ recipients_of e.
Proof.
  unfold output. intros Hbefore Hout. rewrite run_from_app in Hout.
  destruct (run_from ∅ initial [] tr1) as [[[issued1 h1] out1]|] eqn:Hrun1; [|done].
  injection Hbefore as ->. rewrite run_from_output in Hout.
  destruct (run_from issued1 h1 [] (Disconnect s reason env :: tr2))
    as [[[issued2 h2] after]|] eqn:Hrun2; [|done].
  injection Hout as <-. exists after. split; [done|].
  apply Forall_forall.
  pose proof (hub_inv_run_from _ _ _ _ _ _ _ hub_inv_initial Hrun1) as Hinv.
  simpl in Hrun2. destruct (sockets h1 !! s) as [sk|] eqn:Hs; [|done].
  rewrite run_from_output in Hrun2.
  destruct (run_from issued1 _ [] tr2) as [[[issued3 h3] out3]|] eqn:Hrun3; [|done].
  injection Hrun2 as <- <- <-.
  assert (Hin : s ∈ issued1) by (apply (inv_live _ _ Hinv); by rewrite Hs).
  apply Forall_app. split.
  - apply gone_disconnect. simpl. by apply lookup_delete_None; left.
  - eapply gone_run_from_effects; [exact Hin| |exact Hrun3].
    rewrite on_disconnect_hub. destruct (storeFails env); simpl;
      by apply lookup_delete_None; left.
Qed.

(** ** Error replies and activity records *)


Lemma attributed_event ev env id uid uname data :
  triple (λ _, True) (attributed_to uid) (on_event ev env id uid uname data).
Proof.
  destruct ev; through_handler; try done; simpl; (split; [done|by eexists]).
Qed.


(** X3.  Whatever the payload, every activity record a handler writes is
    attributed to the user of the connection: the fields taken from the
    payload never replace [userId] or [action]. *)
Theorem activity_records_name_the_user
    (ev : ClientEvent) (env : Env) (id uid uname : string) (data : Json) (h : Hub)
    (message : string) (fields : list (string * JsVal)) :
  Log "info" message fields ∈ effects_of (on_event ev env id uid uname data h) →
  assoc "userId" fields = Some (VStr uid)
  ∧ ∃ action, message = "User activity: " +:+ action
              ∧ assoc "action" fields = Some (VStr action).
Proof.
  intros Hin.
  destruct (attributed_event ev env id uid uname data h I) as [_ Hall].
  rewrite Forall_forall in Hall. exact (Hall _ Hin).
Qed.

(** ** What a client event leaves alone *)

Lemma client_frame_refl id h : client_frame id h h.
Proof.
  repeat split; try done. by destruct (sockets h !! id).
Qed.

Lemma identities_set_status id st u (m : JsMap.t SocketUser) :
  JsMap.get id m = Some u →
  map (λ kv, (kv.1, identity_of kv.2)) (JsMap.set id (with_status st u) m) =
  map (λ kv, (kv.1, identity_of kv.2)) m.
Proof.
  induction m as [|[k v] m IH]; unfold JsMap.get in *; simpl; [done|].
  destruct (String.eqb_spec id k) as [->|Hne]; simpl.
  - by intros [= ->].
  - intros H. by rewrite IH.
Qed.

Lemma client_frame_join id h0 room :
  preserves (client_frame id h0) (socket_join id ("chat:" +:+ room)).
Proof.
  intros h (Hi & Hids & Hreg & Hothers & Hown).
  unfold socket_join, modify, hub_of, with_sockets, client_frame; simpl.
  destruct (sockets h !! id) as [sk|] eqn:Hid;
    [|repeat split; try done; by rewrite Hid].
  repeat split; simpl; try done.
  - intros s Hs. rewrite lookup_insert_ne by done. by apply Hothers.
  - rewrite lookup_insert_eq. destruct (sockets h0 !! id) as [sk0|]; [|done].
    destruct Hown as (Hu & Hn & Hrooms). simpl. repeat split; try done.
    + intros Hr. apply Hrooms; [done|]. apply elem_of_union in Hr as [Hr|Hr]; [|done].
      apply elem_of_singleton in Hr as ->. by rewrite prefix_append in H.
    + intros Hr. apply elem_of_union_r. by apply Hrooms.
Qed.

Lemma client_frame_leave id h0 room :
  preserves (client_frame id h0) (socket_leave id ("chat:" +:+ room)).
Proof.
  intros h (Hi & Hids & Hreg & Hothers & Hown).
  unfold socket_leave, modify, hub_of, with_sockets, client_frame; simpl.
  destruct (sockets h !! id) as [sk|] eqn:Hid;
    [|repeat split; try done; by rewrite Hid].
  repeat split; simpl; try done.
  - intros s Hs. rewrite lookup_insert_ne by done. by apply Hothers.
  - rewrite lookup_insert_eq. destruct (sockets h0 !! id) as [sk0|]; [|done].
    destruct Hown as (Hu & Hn & Hrooms). simpl. repeat split; try done.
    + intros Hr. apply Hrooms; [done|]. by apply elem_of_difference in Hr as [Hr _].
    + intros Hr. apply elem_of_difference. split; [by apply Hrooms|].
      intros Heq. apply elem_of_singleton in Heq as ->. by rewrite prefix_append in H.
Qed.

Lemma client_frame_status id h0 st :
  preserves (client_frame id h0) (update_in_memory id st).
Proof.
  intros h (Hi & Hids & Hreg & Hothers & Hown).
  unfold update_in_memory, mbind, M_bind, bind, gets, modify, hub_of; simpl.
  destruct (JsMap.get id (connectedUsers h)) as [u|] eqn:Hid; simpl; [|done].
  repeat split; simpl; try done.
  - unfold identities in *; simpl. by rewrite identities_set_status.
  - intros s Hs. rewrite get_set_ne by done. by apply Hreg.
Qed.

(** X4.  An event of socket [id], whatever it is and whatever its
    payload, leaves the index as it was, the registry with the same
    keys in the same order and the same identities, and every other
    socket with its registry entry and its rooms; of [id] itself it
    keeps the identity and every room that is not a chat room.  All a
    client can change is its own status and its own chat rooms. *)
Theorem client_events_change_little
    (ev : ClientEvent) (env : Env) (id uid uname : string) (data : Json) (h : Hub) :
  let h' := hub_of (on_event ev env id uid uname data h) in
  userSockets h' = userSockets h
  ∧ identities h' = identities h
  ∧ (∀ s, s ≠ id → JsMap.get s (connectedUsers h') = JsMap.get s (connectedUsers h))
  ∧ (∀ s, s ≠ id → sockets h' !! s = sockets h !! s)
  ∧ match sockets h !! id, sockets h' !! id with
    | Some sk0, Some sk =>
        sockUserId sk = sockUserId sk0 ∧ sockUsername sk = sockUsername sk0
        ∧ ∀ r, String.prefix "chat:" r = false → r ∈ sockRooms sk ↔ r ∈ sockRooms sk0
    | None, None => True
    | _, _ => False
    end.
Proof.
  apply (on_event_preserves (client_frame id h) id
           (client_frame_join id h) (client_frame_leave id h) (client_frame_status id h)).
  apply client_frame_refl.
Qed.

(** ** Chat rooms *)




Lemma run_adapter_ok tr h : run tr = Some h → adapter_ok h.
Proof. intros Hrun. destruct (hub_inv_run _ _ Hrun) as [issued Hinv]. apply Hinv. Qed.







Lemma on_chat_join_runs env id uid uname data chatId R h :
  prop data "chatId" = Ok chatId → to_string chatId = Ok R →
  let h' := after_join id ("chat:" +:+ R) h in
  on_event ChatJoin env id uid uname data h =
    (h',
     [Log "info" "User activity: Joined chat"
        (spread [("userId", VStr uid); ("action", VStr "Joined chat");
                 ("timestamp", VDate (clock env 0))]
                [("chatId", VWire chatId)]);
      Emit (in_room ("chat:" +:+ R) h' ∖ in_room id h') "chat:user_joined"
        (VObj [("userId", VStr uid); ("username", VStr uname);
               ("chatId", VWire chatId)])],
     Ok tt).
Proof. intros Hchat HR. unfold_handler. rewrite Hchat, HR. reflexivity. Qed.

Lemma on_chat_leave_runs env id uid uname data chatId R h :
  prop data "chatId" = Ok chatId → to_string chatId = Ok R →
  let h' := after_leave id ("chat:" +:+ R) h in
  on_event ChatLeave env id uid uname data h =
    (h',
     [Log "info" "User activity: Left chat"
        (spread [("userId", VStr uid); ("action", VStr "Left chat");
                 ("timestamp", VDate (clock env 0))]
                [("chatId", VWire chatId)]);
      Emit (in_room ("chat:" +:+ R) h' ∖ in_room id h') "chat:user_left"
        (VObj [("userId", VStr uid); ("username", VStr uname);
               ("chatId", VWire chatId)])],
     Ok tt).
Proof. intros Hchat HR. unfold_handler. rewrite Hchat, HR. reflexivity. Qed.



Lemma hub_of_result {A : Type} (h : Hub) (out : list Effect) (r : Res A) :
  hub_of (h, out, r) = h.
Proof. reflexivity. Qed.

Lemma hub_eta h m : m = sockets h → with_sockets (λ _, m) h = h.
Proof. intros ->. by destruct h. Qed.

Lemma after_join_twice id room h :
  after_join id room (after_join id room h) = after_join id room h.
Proof.
  unfold after_join, socket_join, modify, hub_of, with_sockets; simpl.
  destruct (sockets h !! id) as [sk|] eqn:Hid; simpl; [|by rewrite Hid].
  rewrite lookup_insert_eq. simpl. rewrite insert_insert_eq.
  by rewrite (assoc_L (∪)), (idemp_L (∪)).
Qed.

Lemma after_leave_not_member id room h :
  id ∉ in_room room h → after_leave id room h = h.
Proof.
  intros Hnot. unfold after_leave, socket_leave, modify, hub_of; simpl.
  apply hub_eta. destruct (sockets h !! id) as [sk|] eqn:Hid; [|done].
  assert (Hroom : room ∉ sockRooms sk).
  { intros Hr. apply Hnot, elem_of_in_room. eauto. }
  rewrite (difference_disjoint_L (sockRooms sk) {[room]}).
  - destruct sk. by apply insert_id.
  - by apply disjoint_singleton_r.
Qed.

Lemma after_leave_after_join id room h :
  id ∉ in_room room h → after_leave id room (after_join id room h) = h.
Proof.
  intros Hnot.
  unfold after_leave, after_join, socket_leave, socket_join, modify, hub_of, with_sockets;
    simpl.
  destruct (sockets h !! id) as [sk|] eqn:Hid; simpl.
  - rewrite lookup_insert_eq. simpl. rewrite insert_insert_eq.
    assert (Hroom : room ∉ sockRooms sk).
    { intros Hr. apply Hnot, elem_of_in_room. eauto. }
    assert (Hrooms : ({[room]} ∪ sockRooms sk) ∖ {[room]} = sockRooms sk).
    { apply set_eq. intros r.
      rewrite elem_of_difference, elem_of_union, elem_of_singleton.
      split; [tauto|]. intros Hr. split; [tauto|]. by intros ->. }
    rewrite Hrooms. destruct h as [reg index socks]; simpl in *. f_equal.
    destruct sk. by apply insert_id.
  - rewrite Hid. by destruct h.
Qed.

(** X7.  Joining a room a second time changes nothing in the hub: the
    registry, the index and the membership of every room are those the
    first join left. *)
Theorem chat_join_twice_is_once
    (env1 env2 : Env) (id uid uname : string) (data : Json) (h : Hub) :
  let once := hub_of (on_event ChatJoin env1 id uid uname data h) in
  hub_of (on_event ChatJoin env2 id uid uname data once) = once.
Proof.
  intros once. subst once.
  destruct (prop data "chatId") as [chatId|e] eqn:Hchat.
  - destruct (to_string chatId) as [R|e] eqn:HR.
    + rewrite !(on_chat_join_runs env1 id uid uname data chatId R h Hchat HR).
      rewrite hub_of_result.
      rewrite (on_chat_join_runs env2 id uid uname data chatId R _ Hchat HR).
      rewrite hub_of_result. apply after_join_twice.
    + unfold_handler. rewrite ?Hchat, ?HR. simpl. by rewrite ?Hchat, ?HR.
  - unfold_handler. rewrite ?Hchat. simpl. by rewrite ?Hchat.
Qed.

(** X8.  For a session that is not in room [R]: a [chat:leave] for [R]
    leaves the hub exactly as it was, and a [chat:join] followed by a
    [chat:leave] brings the hub back to what it was. *)
Theorem chat_leave_undoes_join
    (env1 env2 : Env) (id uid uname : string) (data chatId : Json) (R : string) (h : Hub) :
  prop data "chatId" = Ok chatId →
  to_string chatId = Ok R →
  id ∉ joined R h →
  hub_of (on_event ChatLeave env1 id uid uname data h) = h
  ∧ hub_of (on_event ChatLeave env2 id uid uname data
              (hub_of (on_event ChatJoin env1 id uid uname data h))) = h.
Proof.
  intros Hchat HR Hnot. split.
  - rewrite (on_chat_leave_runs env1 id uid uname data chatId R h Hchat HR).
    rewrite hub_of_result. by apply after_leave_not_member.
  - rewrite (on_chat_join_runs env1 id uid uname data chatId R h Hchat HR).
    rewrite hub_of_result.
    rewrite (on_chat_leave_runs env2 id uid uname data chatId R _ Hchat HR).
    rewrite hub_of_result. by apply after_leave_after_join.
Qed.

(** ** Typing indicators and call set-up *)

(** X9.  A [typing:start] or [typing:stop] of a live session for room [R]
    is relayed, with the sender's user id and username, to the members
    of [R] other than the sender, and to nobody else; it changes nothing
    in the hub and writes no record. *)
Theorem typing_goes_to_the_other_members
    (tr : list Step) (h : Hub) (ev : ClientEvent) (event : string) (env : Env)
    (id uid uname : string) (data chatId : Json) (R : string) :
  run tr = Some h →
  is_Some (sockets h !! id) →
  (ev, event) ∈ typing →
  prop data "chatId" = Ok chatId →
  to_string chatId = Ok R →
  on_event ev env id uid uname data h =
    (h,
     [Emit (joined R h ∖ {[id]}) event
        (VObj [("userId", VStr uid); ("username", VStr uname);
               ("chatId", VWire chatId)])],
     Ok tt).
Proof.
  intros Hrun Hid Hev Hchat HR.
  pose proof (own_room h id (run_adapter_ok _ _ Hrun) Hid) as Hown.
  assert (Hcases : (ev, event) = (TypingStart, "typing:start")
                 ∨ (ev, event) = (TypingStop, "typing:stop")).
  { unfold typing in Hev. rewrite !elem_of_cons, elem_of_nil in Hev. tauto. }
  destruct Hcases as [[= -> ->]|[= -> ->]];
    unfold_handler; rewrite Hchat, HR; simpl; by rewrite Hown.
Qed.



(** ** Connecting and disconnecting *)

(** The last step of a trace, taken from a hub that satisfies the
    invariant. *)
Lemma play_snoc tr st h before h' out :
  play tr = Some (h, before) →
  play (tr ++ [st]) = Some (h', out) →
  ∃ issued issued' added,
    hub_inv issued h
    ∧ step issued h st = Some (issued', h', added)
    ∧ out = before ++ added.
Proof.
  unfold play. rewrite run_from_app.
  destruct (run_from ∅ initial [] tr) as [[[issued h0] out0]|] eqn:Hrun; [|done].
  intros [= -> ->]. simpl.
  destruct (step issued h st) as [[[issued' h1] added]|] eqn:Hstep; [|done].
  intros [= -> <-]. exists issued, issued', added.
  split; [|done]. eapply hub_inv_run_from; [apply hub_inv_initial|exact Hrun].
Qed.

Lemma play_run tr h out : play tr = Some (h, out) → run tr = Some h.
Proof.
  unfold play, run. destruct (run_from ∅ initial [] tr) as [[[? ?] ?]|]; [|done].
  by intros [= -> ->].
Qed.

Lemma in_room_same_sockets room h h' : sockets h' = sockets h → in_room room h' = in_room room h.
Proof. unfold in_room. by intros ->. Qed.

Lemma in_user_room env id uid uname h :
  with_sockets
    (λ m : gmap string Sock,
       match m !! id with
       | Some sk =>
           <[id := {| sockUserId := sockUserId sk; sockUsername := sockUsername sk;
                      sockRooms := {["user:" +:+ uid]} ∪ sockRooms sk |}]> m
       | None => m
       end)
    (with_userSockets <[uid := id]>
       (with_connectedUsers
          (JsMap.set id
             {| userId := uid; username := uname; socketId := id;
                status := JStr "online"; lastSeen := clock env 1 |})
          (socket_open id uid uname h))) =
  registered env id uid uname h.
Proof.
  unfold with_sockets, with_userSockets, with_connectedUsers, socket_open, registered; simpl.
  rewrite lookup_insert_eq. simpl. by rewrite insert_insert_eq.
Qed.

Lemma on_connection_runs env id uid uname h :
  storeFails env = false →
  let h' := registered env id uid uname h in
  on_connection env id uid uname (socket_open id uid uname h) =
    (h',
     [StoreUpdate uid [("status", VStr "online"); ("lastSeen", VDate (clock env 0))];
      Emit (dom (sockets h') ∖ in_room id h') "user:online"
        (VObj [("userId", VStr uid); ("username", VStr uname);
               ("status", VStr "online"); ("lastSeen", VDate (clock env 2))]);
      Log "info" "User activity: Connected to socket"
        (spread [("userId", VStr uid); ("action", VStr "Connected to socket");
                 ("timestamp", VDate (clock env 3))]
                [("socketId", VStr id)]);
      Emit (dom (sockets h') ∩ {[id]}) "users:online"
        (VArr (map summary (getConnectedUsers h')))],
     Ok tt).
Proof.
  intros Hstore h'. subst h'. unfold_handler. rewrite Hstore. simpl.
  rewrite lookup_insert_eq. simpl. rewrite insert_insert_eq.
  rewrite !(in_user_room env id uid uname h). reflexivity.
Qed.





Lemma joined_after_close R id h h' :
  sockets h' = delete id (sockets h) → joined R h' = joined R h ∖ {[id]}.
Proof.
  intros Hs. apply set_eq. intros s. unfold joined.
  rewrite elem_of_difference, !elem_of_in_room, elem_of_singleton, Hs. split.
  - intros (sk & Hsk & Hr). apply lookup_delete_Some in Hsk as [Hne Hsk]. split; eauto.
  - intros [(sk & Hsk & Hr) Hne]. exists sk. split; [|done].
    apply lookup_delete_Some. split; [congruence|done].
Qed.


(** X15.  A disconnect whose account-store update is rejected: the session
    has left the namespace and every chat room, but its registry entry
    and its user's index entry are still there, and nobody is told that
    the user went offline. *)
Theorem failed_disconnect_leaves_the_session_listed
    (tr : list Step) (id reason : string) (env : Env)
    (h h' : Hub) (before out : list Effect) :
  play tr = Some (h, before) →
  play (tr ++ [Disconnect id reason env]) = Some (h', out) →
  storeFails env = true →
  connected h' = connected h ∖ {[id]}
  ∧ (∀ R, joined R h' = joined R h ∖ {[id]})
  ∧ getConnectedUsers h' = getConnectedUsers h
  ∧ userSockets h' = userSockets h
  ∧ ∃ record, out = before ++ [record] ∧ emitted [record] = [].
Proof.
  intros Hplay Hplay' Hstore.
  destruct (play_snoc _ _ _ _ _ _ Hplay Hplay') as (issued & issued' & added & Hinv & Hstep & ->).
  simpl in Hstep. destruct (sockets h !! id) as [sk|] eqn:Hid; [|done].
  injection Hstep as <- <- <-.
  rewrite on_disconnect_hub, Hstore. repeat split.
  - unfold connected; simpl. by rewrite dom_delete_L.
  - intros R. by apply joined_after_close.
  - eexists. split; [f_equal; unfold_handler; rewrite Hstore; reflexivity|done].
Qed.

(** ** The registry of the running server *)

Section JsMapKeys.
Context {V : Type}.
Implicit Types (m : JsMap.t V) (k : string) (v : V).




End JsMapKeys.















(** ** Sending to a user *)


(** ** A status and the snapshots that follow *)

(** X20.  The status a client sets with [user:status] is stored as it came,
    whatever value it is, and is what the next connection is shown: the
    [users:online] list sent to a session that connects afterwards
    carries the entry of the first session with that status. *)
Theorem status_shows_in_later_snapshots
    (env env2 : Env) (id uid uname id2 uid2 uname2 : string) (data st : Json)
    (u : SocketUser) (h : Hub) :
  JsMap.get id (connectedUsers h) = Some u →
  prop data "status" = Ok st →
  storeFails env = false →
  storeFails env2 = false →
  id2 ≠ id →
  let h1 := hub_of (on_event UserStatus env id uid uname data h) in
  let r2 := on_connection env2 id2 uid2 uname2 (socket_open id2 uid2 uname2 h1) in
  ∃ items,
    Emit {[id2]} "users:online" (VArr items) ∈ effects_of r2
    ∧ VObj [("userId", VStr (userId u)); ("username", VStr (username u));
            ("status", VWire st); ("lastSeen", VDate (lastSeen u))] ∈ items.
Proof.
  intros Hid Hst Hstore Hstore2 Hne h1 r2.
  assert (Hh1 : JsMap.get id (connectedUsers h1) = Some (with_status st u)).
  { subst h1. unfold_handler. rewrite Hst, Hstore. simpl. rewrite Hid. simpl.
    destruct (to_string st); simpl; apply get_set_eq. }
  subst r2. rewrite (on_connection_runs env2 id2 uid2 uname2 h1 Hstore2).
  assert (Hself : dom (sockets (registered env2 id2 uid2 uname2 h1)) ∩ {[id2]}
                  = ({[id2]} : gset string)).
  { unfold registered; simpl. rewrite dom_insert_L. apply set_eq. intros s.
    rewrite elem_of_intersection, elem_of_union, elem_of_singleton. tauto. }
  eexists. split.
  - cbv zeta. rewrite Hself. unfold effects_of; simpl.
    do 3 apply list_elem_of_further. apply list_elem_of_here.
  - apply list_elem_of_fmap. exists (with_status st u). split; [done|].
    apply (get_in_values id). unfold registered; simpl. by rewrite get_set_ne.
Qed.

(** * The middlewares of [middleware/auth.ts] *)

(** ** The two gates *)

Lemma authenticateToken_catch_outcome error :
  (authenticateToken_catch error).2 =
    (if instanceof_JsonWebTokenError (thrown_class error)
     then Respond 401 "Access denied" "Invalid authentication token"
     else Respond 500 "Internal server error" "Failed to authenticate token").
Proof.
  unfold authenticateToken_catch. by destruct (thrown_class error).
Qed.

(** X21.  [authenticateToken] never answers that the token has expired,
    and never logs the record of that branch: the error [jwt.verify]
    throws for an expired token is a [JsonWebTokenError] as well, and
    the test for that class comes first.  Whatever is thrown, the
    answer is 401 with the message for an invalid token, or 500. *)
Theorem authenticateToken_never_reports_expiry
    (authHeader : option string) (verified : Thrown + Json)
    (account : Thrown + option UserDoc) :
  (∀ code error,
     (authenticateToken authHeader verified account).2
     ≠ Respond code error "Authentication token has expired")
  ∧ (∀ level fields,
       Log level "Expired JWT token" fields
       ∉ (authenticateToken authHeader verified account).1).
Proof.
  assert (Hcatch : ∀ error,
    (∀ code err, (authenticateToken_catch error).2
                 ≠ Respond code err "Authentication token has expired")
    ∧ (∀ level fields, Log level "Expired JWT token" fields
                       ∉ (authenticateToken_catch error).1)).
  { intros error. split.
    - intros code err. rewrite authenticateToken_catch_outcome.
      by destruct (instanceof_JsonWebTokenError _).
    - intros level fields. unfold authenticateToken_catch.
      destruct (thrown_class error); simpl;
        intros Hin; apply list_elem_of_singleton in Hin; discriminate. }
  unfold authenticateToken.
  destruct (bearer authHeader) as [[|c t]|];
    try (split; [done|intros ? ?; apply not_elem_of_nil]).
  destruct verified as [error|decoded]; [apply Hcatch|].
  destruct (decoded_userId decoded) as [error|wanted]; [apply Hcatch|].
  destruct account as [error|[found|]]; [apply Hcatch| |];
    [destruct (isActive found)|];
    (split; [done|intros ? ?; apply not_elem_of_nil]).
Qed.

(** X22.  The connection gate of the socket server and [authenticateToken]
    let the same people in: for a handshake and a request that both
    carry a token, or both carry none, and the same answers of
    [jwt.verify] and [User.findById], the handshake is accepted as user
    [uid] named [uname] exactly when the request is passed on with
    [req.user] naming [uid] and [uname]. *)
Theorem the_gates_let_the_same_in
    (now : Z) (id : string) (a : Attempt) (authHeader : option string)
    (uid uname : string) :
  truthy (token a) = presents authHeader →
  (authenticate now id a).2 = Accept uid uname
  ↔ ∃ mail, (authenticateToken authHeader (verified a) (account a)).2 = Next uid mail uname.
Proof.
  unfold presents, authenticate, authenticateToken, authentication_failed.
  intros Hsame. rewrite Hsame.
  destruct (bearer authHeader) as [[|c t]|]; simpl;
    try by (split; [|intros [? ?]]).
  destruct (verified a) as [error|decoded]; simpl.
  { rewrite authenticateToken_catch_outcome.
    split; [done|intros [? H]]. by destruct (instanceof_JsonWebTokenError _). }
  destruct (decoded_userId decoded) as [error|wanted]; simpl.
  { rewrite authenticateToken_catch_outcome.
    split; [done|intros [? H]]. by destruct (instanceof_JsonWebTokenError _). }
  destruct (account a) as [error|[found|]]; simpl.
  - rewrite authenticateToken_catch_outcome.
    split; [done|intros [? H]]. by destruct (instanceof_JsonWebTokenError _).
  - destruct (isActive found); simpl; [|by split; [|intros [? ?]]].
    split.
    + intros [= <- <-]. by eexists.
    + by intros [mail [= <- _ <-]].
  - by split; [|intros [? ?]].
Qed.

(** X23.  [optionalAuth] never answers the request itself; it sets
    [req.user] exactly for the requests [authenticateToken] would pass
    on, to the same user, leaves it as it was for all others, and logs
    at level [debug] only. *)
Theorem optionalAuth_identifies_whom_authenticateToken_passes
    (authHeader : option string) (verified : Thrown + Json)
    (account : Thrown + option UserDoc) (user : option ReqUser) :
  ∃ log user',
    optionalAuth authHeader verified account user = (log, user', Continue)
    ∧ (∀ uid mail uname,
         (authenticateToken authHeader verified account).2 = Next uid mail uname →
         user' = Some (mkReqUser uid mail uname))
    ∧ ((∀ uid mail uname,
          (authenticateToken authHeader verified account).2 ≠ Next uid mail uname) →
       user' = user)
    ∧ ∀ level message fields, Log level message fields ∈ log → level = "debug".
Proof.
  assert (Hcatch : ∀ error uid mail uname,
    (authenticateToken_catch error).2 ≠ Next uid mail uname).
  { intros error uid mail uname. rewrite authenticateToken_catch_outcome.
    by destruct (instanceof_JsonWebTokenError _). }
  assert (Hfailed : ∀ error level message fields,
    Log level message fields
    ∈ [Log "debug" "Optional auth failed:" [("error", VStr (thrown_message error))]] →
    level = "debug").
  { intros error level message fields Hin.
    apply list_elem_of_singleton in Hin. by injection Hin as -> _ _. }
  assert (Hnil : ∀ level message fields,
    Log level message fields ∈ @nil Effect → level = "debug").
  { intros level message fields Hin. by apply not_elem_of_nil in Hin. }
  unfold optionalAuth, authenticateToken.
  destruct (bearer authHeader) as [[|c t]|];
    try by (do 2 eexists; split; [done|split; [done|split; [done|apply Hnil]]]).
  destruct verified as [error|decoded].
  { do 2 eexists; split; [done|split; [|split; [done|apply Hfailed]]].
    intros uid mail uname H. by apply Hcatch in H. }
  destruct (decoded_userId decoded) as [error|wanted].
  { do 2 eexists; split; [done|split; [|split; [done|apply Hfailed]]].
    intros uid mail uname H. by apply Hcatch in H. }
  destruct account as [error|[found|]].
  - do 2 eexists; split; [done|split; [|split; [done|apply Hfailed]]].
    intros uid mail uname H. by apply Hcatch in H.
  - destruct (isActive found);
      (do 2 eexists; split; [done|split; [|split; [|apply Hnil]]]); simpl.
    + by intros uid mail uname [= <- <- <-].
    + intros H. by destruct (H (_id found) (email found) (doc_username found)).
    + done.
    + done.
  - by do 2 eexists; split; [done|split; [|split; [|apply Hnil]]].
Qed.

(** ** Reading the header *)

Lemma split_space_word (word : string) :
  no_space word = true → split_space word = [word].
Proof.
  induction word as [|c word IH]; simpl; [done|].
  intros H. apply andb_true_iff in H as [Hc Hword].
  apply negb_true_iff in Hc. rewrite Hc, (IH Hword). done.
Qed.

Lemma split_space_cons (word rest : string) :
  no_space word = true →
  split_space (word +:+ " " +:+ rest) = word :: split_space rest.
Proof.
  induction word as [|c word IH]; simpl; [done|].
  intros H. apply andb_true_iff in H as [Hc Hword].
  apply negb_true_iff in Hc. rewrite Hc, (IH Hword). done.
Qed.

(** X24.  [authenticateToken] and [optionalAuth] take the second word of
    the [Authorization] header for the token, whatever the first word
    is and whatever follows the second: the scheme is never looked at.
    A header of one word carries no token. *)
Theorem the_token_is_the_second_word (scheme t : string) :
  no_space scheme = true →
  no_space t = true →
  bearer (Some (scheme +:+ " " +:+ t)) = Some t
  ∧ (∀ more, bearer (Some (scheme +:+ " " +:+ t +:+ " " +:+ more)) = Some t)
  ∧ presents (Some scheme) = false.
Proof.
  intros Hscheme Ht.
  assert (Hbearer : ∀ rest,
    bearer (Some (scheme +:+ " " +:+ rest)) = nth_error (split_space rest) 0).
  { intros rest. unfold bearer.
    destruct (scheme +:+ " " +:+ rest) as [|c s] eqn:E; [by destruct scheme|].
    rewrite <- E. by rewrite split_space_cons. }
  split; [|split].
  - by rewrite Hbearer, split_space_word.
  - intros more. by rewrite Hbearer, split_space_cons.
  - unfold presents, bearer. destruct scheme as [|c s]; [done|].
    by rewrite split_space_word.
Qed.

(** ** Roles *)

Lemma substring_all (s : string) : substring 0 (String.length s) s = s.
Proof. induction s as [|c s IH]; simpl; [done|by rewrite IH]. Qed.

Lemma substring_skip (front s : string) (n : nat) :
  substring (String.length front) n (front +:+ s) = substring 0 n s.
Proof. induction front as [|c front IH]; simpl; [done|apply IH]. Qed.

Lemma length_append (front s : string) :
  String.length (front +:+ s) = (String.length front + String.length s)%nat.
Proof. induction front as [|c front IH]; simpl; [done|by rewrite IH]. Qed.

Lemma substring_split (s : string) : ∀ n, (n ≤ String.length s)%nat →
  s = substring 0 n s +:+ substring n (String.length s - n) s.
Proof.
  induction s as [|c s IH]; intros [|n] Hn; simpl in *.
  - done.
  - lia.
  - by rewrite substring_all.
  - change (String c s
            = String c (substring 0 n s +:+ substring n (String.length s - n) s)).
    f_equal. apply IH. lia.
Qed.

Lemma endsWith_spec (s suffix : string) :
  endsWith s suffix = true ↔ ∃ front, s = front +:+ suffix.
Proof.
  unfold endsWith. rewrite andb_true_iff, Nat.leb_le, String.eqb_eq. split.
  - intros [Hle Hsub].
    exists (substring 0 (String.length s - String.length suffix) s).
    pose proof (substring_split s (String.length s - String.length suffix)
                  ltac:(lia)) as Hsplit.
    replace (String.length s - (String.length s - String.length suffix))%nat
      with (String.length suffix) in Hsplit by lia.
    by rewrite Hsub in Hsplit.
  - intros [front ->]. rewrite length_append. split; [lia|].
    replace (String.length front + String.length suffix - String.length suffix)%nat
      with (String.length front) by lia.
    rewrite substring_skip. apply substring_all.
Qed.

Lemma includes_spec (roles : list string) (role : string) :
  includes roles role = true ↔ role ∈ roles.
Proof.
  unfold includes. rewrite existsb_exists. split.
  - intros (r & Hin & Heq). apply String.eqb_eq in Heq as ->. by apply list_elem_of_In.
  - intros Hin. exists role. split; [by apply list_elem_of_In|apply String.eqb_refl].
Qed.

(** X25.  For a signed-in request whose account is found, [requireRole]
    goes by the address stored with the account and by nothing else,
    neither the address in [req.user] nor whether the account is
    active: it lets the request through exactly when the stored address
    ends in [@admin.nyx] and the roles asked for include [admin], or it
    does not and they include [user]; everybody else is answered 403.
    So an administrator is not let through where only [user] is asked
    for. *)
Theorem requireRole_goes_by_the_stored_address
    (roles : list string) (user : ReqUser) (found : UserDoc) :
  let admin := ∃ front, email found = front +:+ "@admin.nyx" in
  (requireRole roles (Some user) (inr (Some found)) = ([], Continue)
   ∨ requireRole roles (Some user) (inr (Some found))
     = ([], Answered 403 "Access forbidden" "Insufficient permissions"))
  ∧ (requireRole roles (Some user) (inr (Some found)) = ([], Continue)
     ↔ (admin ∧ "admin" ∈ roles) ∨ (¬ admin ∧ "user" ∈ roles)).
Proof.
  intros admin. unfold requireRole, userRole.
  destruct (endsWith (email found) "@admin.nyx") eqn:Hends.
  - assert (Hadmin : admin) by by apply endsWith_spec.
    destruct (includes roles "admin") eqn:Hin; simpl.
    + split; [by left|]. split; [|done].
      intros _. left. split; [done|]. by apply includes_spec.
    + split; [by right|]. split; [done|].
      intros [[_ Hmem]|[Hnot _]]; [|done].
      apply includes_spec in Hmem. congruence.
  - assert (Hnot : ¬ admin).
    { intros H. apply endsWith_spec in H. congruence. }
    destruct (includes roles "user") eqn:Hin; simpl.
    + split; [by left|]. split; [|done].
      intros _. right. split; [done|]. by apply includes_spec.
    + split; [by right|]. split; [done|].
      intros [[Hadmin _]|[_ Hmem]]; [done|].
      apply includes_spec in Hmem. congruence.
Qed.

(** ** The rate limiter *)

Lemma rateLimitByUser_other M W user ip now st key :
  key ≠ limit_key user ip →
  (rateLimitByUser M W user ip now st).1 !! key = st !! key.
Proof.
  intros Hne. unfold rateLimitByUser.
  destruct (st !! limit_key user ip) as [l|]; simpl.
  - destruct (now >? resetTime l); simpl; [by rewrite lookup_insert_ne|].
    destruct (count l >=? M); simpl; [done|by rewrite lookup_insert_ne].
  - by rewrite lookup_insert_ne.
Qed.

Lemma serve_cons M W hit hits st :
  serve M W (hit :: hits) st =
    ((limit_key (hit_user hit) (hit_ip hit),
      (rateLimitByUser M W (hit_user hit) (hit_ip hit) (hit_now hit) st).2)
       :: (serve M W hits
             (rateLimitByUser M W (hit_user hit) (hit_ip hit) (hit_now hit) st).1).1,
     (serve M W hits
        (rateLimitByUser M W (hit_user hit) (hit_ip hit) (hit_now hit) st).1).2).
Proof.
  simpl. destruct (rateLimitByUser _ _ _ _ _ _) as [st' p]. simpl.
  by destruct (serve M W hits st').
Qed.

(** Inside a window: of the requests that follow, as many are let
    through as the count leaves room for. *)
Lemma serve_window M W key hits : ∀ st c r,
  st !! key = Some (mkLimit c r) →
  (∀ hit, hit ∈ hits → limit_key (hit_user hit) (hit_ip hit) = key → hit_now hit ≤ r) →
  Z.of_nat (let_through key (serve M W hits st).1)
  = Z.min (Z.of_nat (requests key hits)) (Z.max 0 (M - c))
  ∧ (serve M W hits st).2 !! key
    = Some (mkLimit (c + Z.min (Z.of_nat (requests key hits)) (Z.max 0 (M - c))) r).
Proof.
  induction hits as [|hit hits IH]; intros st c r Hkey Hin.
  - unfold let_through, requests. simpl. split; [lia|]. rewrite Hkey. do 2 f_equal. lia.
  - rewrite serve_cons. unfold let_through, requests. simpl.
    assert (Hrest : ∀ hit', hit' ∈ hits →
              limit_key (hit_user hit') (hit_ip hit') = key → hit_now hit' ≤ r).
    { intros hit' Hhit'. apply Hin. by apply list_elem_of_further. }
    case_bool_decide as Hk; simpl.
    + assert (Hnow : hit_now hit ≤ r) by (apply Hin; [apply list_elem_of_here|done]).
      unfold rateLimitByUser at 1 3 4. rewrite Hk, Hkey. simpl.
      destruct (hit_now hit >? r) eqn:Hgt; [lia|].
      destruct (c >=? M) eqn:Hfull; simpl.
      * destruct (IH st c r Hkey Hrest) as [Hadm Hfin].
        unfold let_through, requests in Hadm, Hfin.
        unfold rateLimitByUser. rewrite Hk, Hkey. simpl. rewrite Hgt, Hfull. simpl.
        split; [lia|]. rewrite Hfin. do 2 f_equal. lia.
      * destruct (IH (<[key := mkLimit (c + 1) r]> st) (c + 1) r
                    (lookup_insert_eq _ _ _) Hrest) as [Hadm Hfin].
        unfold let_through, requests in Hadm, Hfin.
        unfold rateLimitByUser. rewrite Hk, Hkey. simpl. rewrite Hgt, Hfull. simpl.
        split; [lia|]. rewrite Hfin. do 2 f_equal. lia.
    + destruct (IH (rateLimitByUser M W (hit_user hit) (hit_ip hit) (hit_now hit) st).1 c r)
        as [Hadm Hfin]; [|exact Hrest|].
      { rewrite rateLimitByUser_other by done. exact Hkey. }
      unfold let_through, requests in Hadm, Hfin. by split.
Qed.

(** X26.  The quota of [rateLimitByUser].  A request that finds no entry
    for its key, or one whose reset time has passed, is let through and
    opens a window of [windowMs].  Of it and the requests counted under
    the same key up to the end of that window, the first [maxRequests]
    are let through and no more, however requests under other keys
    come in between; the opening request is let through even when
    [maxRequests] is zero or less. *)
Theorem rateLimitByUser_quota
    (maxRequests windowMs : Z) (user : option ReqUser) (ip : option string) (now : Z)
    (hits : list Hit) (userRequests : gmap (option string) Limit) :
  let key := limit_key user ip in
  (∀ userLimit, userRequests !! key = Some userLimit → resetTime userLimit < now) →
  (∀ hit, hit ∈ hits → limit_key (hit_user hit) (hit_ip hit) = key →
          hit_now hit ≤ now + windowMs) →
  Z.of_nat (let_through key (serve maxRequests windowMs (mkHit user ip now :: hits)
                            userRequests).1)
  = Z.min (1 + Z.of_nat (requests key hits)) (Z.max 1 maxRequests).
Proof.
  intros key Hopen Hin. rewrite serve_cons. simpl.
  assert (Hfirst : rateLimitByUser maxRequests windowMs user ip now userRequests
                   = (<[key := mkLimit 1 (now + windowMs)]> userRequests, Continue)).
  { unfold rateLimitByUser. fold key.
    destruct (userRequests !! key) as [l|] eqn:Hl; [|done].
    specialize (Hopen l eq_refl).
    destruct (now >? resetTime l) eqn:Hgt; [done|lia]. }
  rewrite Hfirst. simpl.
  destruct (serve_window maxRequests windowMs key hits
              (<[key := mkLimit 1 (now + windowMs)]> userRequests) 1 (now + windowMs)
              (lookup_insert_eq _ _ _) Hin) as [Hadm _].
  unfold let_through in *. simpl. fold key. rewrite bool_decide_eq_true_2 by done. simpl.
  lia.
Qed.



(** ** The lock on an account *)

Lemma lock_inv_findByCredentials now later user isMatch :
  lock_inv user → lock_inv (findByCredentials now later user isMatch).1.
Proof.
  unfold lock_inv, findByCredentials, incLoginAttempts, isLocked.
  destruct user as [d attempts [until|]]; simpl; intros Hinv.
  - destruct (until >? now); simpl; [done|].
    destruct isMatch; simpl.
    + destruct (attempts >? 0); simpl; [lia|done].
    + destruct (until <? later); simpl; [lia|].
      destruct (attempts + 1 >=? 5) eqn:E; simpl; [|lia].
      destruct (until >? later); simpl; lia.
  - destruct isMatch; simpl.
    + destruct (attempts >? 0); simpl; [lia|done].
    + destruct (attempts + 1 >=? 5) eqn:E; simpl; lia.
Qed.

Lemma logins_cons attempt rest user :
  logins (attempt :: rest) user =
    ((logins rest (findByCredentials (login_now attempt) (login_later attempt) user
                     (login_isMatch attempt)).1).1,
     (findByCredentials (login_now attempt) (login_later attempt) user
        (login_isMatch attempt)).2
       :: (logins rest (findByCredentials (login_now attempt) (login_later attempt) user
                          (login_isMatch attempt)).1).2).
Proof.
  simpl. destruct (findByCredentials _ _ _ _) as [stored outcome]. simpl.
  by destruct (logins rest stored).
Qed.

Lemma logins_app first second user :
  logins (first ++ second) user =
    ((logins second (logins first user).1).1,
     (logins first user).2 ++ (logins second (logins first user).1).2).
Proof.
  revert user. induction first as [|attempt first IH]; intros user.
  - simpl. by destruct (logins second user).
  - rewrite <- app_comm_cons, !logins_cons, IH. done.
Qed.

(** X28.  Whatever logins are tried on an account, in whatever order of
    times and with whatever passwords, an account that starts with no
    lock and fewer than five counted failures is stored with a lock
    exactly when at least five failures are counted: without a lock the
    count stays between 0 and 4. *)
Theorem the_lock_follows_the_count (attempts : list Login) (user : AccountDoc) :
  lock_inv user →
  lock_inv (logins attempts user).1
  ∧ (is_Some (lockUntil (logins attempts user).1)
     ↔ 5 ≤ loginAttempts (logins attempts user).1).
Proof.
  intros Hinv.
  assert (H : lock_inv (logins attempts user).1).
  { revert user Hinv. induction attempts as [|attempt rest IH]; intros user Hinv; [done|].
    rewrite logins_cons. simpl. by apply IH, lock_inv_findByCredentials. }
  split; [done|]. unfold lock_inv in H.
  destruct (lockUntil (logins attempts user).1); split.
  - done.
  - eauto.
  - by intros [? ?].
  - lia.
Qed.

(** Wrong passwords on an account without a lock, as long as the count
    stays under five, are each checked and counted. *)
Lemma wrong_passwords_count (attempts : list Login) : ∀ user,
  lockUntil user = None →
  Forall (λ attempt, login_isMatch attempt = false) attempts →
  loginAttempts user + Z.of_nat (length attempts) < 5 →
  (logins attempts user).1
  = {| doc := doc user;
       loginAttempts := loginAttempts user + Z.of_nat (length attempts);
       lockUntil := None |}
  ∧ Forall (λ outcome, outcome = inl "Invalid credentials") (logins attempts user).2.
Proof.
  induction attempts as [|attempt rest IH]; intros user Hlock Hwrong Hfew.
  - simpl. split; [|done]. destruct user; simpl in *. subst. f_equal. lia.
  - apply Forall_cons in Hwrong as [Hwrong Hrest]. rewrite logins_cons. simpl.
    assert (Hstep : findByCredentials (login_now attempt) (login_later attempt) user
                      (login_isMatch attempt)
                    = ({| doc := doc user; loginAttempts := loginAttempts user + 1;
                          lockUntil := None |}, inl "Invalid credentials")).
    { unfold findByCredentials, isLocked, incLoginAttempts. rewrite Hlock, Hwrong. simpl.
      simpl in Hfew. destruct (loginAttempts user + 1 >=? 5) eqn:E; [lia|done]. }
    rewrite Hstep. simpl.
    destruct (IH {| doc := doc user; loginAttempts := loginAttempts user + 1;
                    lockUntil := None |}) as [Hfinal Hout]; [done|done|simpl in *; lia|].
    split.
    + rewrite Hfinal. simpl. f_equal. simpl in Hfew. lia.
    + by apply Forall_cons.
Qed.

(** X29.  Five wrong passwords lock an account.  On an account with no
    failure counted and no lock, five logins with a wrong password are
    each answered [Invalid credentials], and the fifth stores a lock
    that ends two hours after it.  Until then every login is refused
    with the message of the lock, whether the password matches or not,
    and changes nothing, and [checkAccountLock] answers the account's
    requests with 423. *)
Theorem five_wrong_passwords_lock_the_account
    (user : AccountDoc) (before : list Login) (fifth : Login)
    (now later : Z) (isMatch : bool) (who : ReqUser) :
  loginAttempts user = 0 →
  lockUntil user = None →
  length before = 4%nat →
  Forall (λ attempt, login_isMatch attempt = false) (before ++ [fifth]) →
  now < login_later fifth + 7200000 →
  let locked := {| doc := doc user; loginAttempts := 5;
                   lockUntil := Some (login_later fifth + 7200000) |} in
  logins (before ++ [fifth]) user
    = (locked, replicate 5 (inl "Invalid credentials"))
  ∧ findByCredentials now later locked isMatch
    = (locked, inl "Account is temporarily locked due to too many failed login attempts")
  ∧ checkAccountLock now (Some who) (inr (Some locked))
    = ([], Answered 423 "Account locked"
             "Account is temporarily locked due to security reasons").
Proof.
  intros Hzero Hnone Hfour Hwrong Hnow locked.
  apply Forall_app in Hwrong as [Hbefore Hfifth].
  apply Forall_inv in Hfifth. simpl in Hfifth.
  destruct (wrong_passwords_count before user Hnone Hbefore) as [Hfinal Hout];
    [rewrite Hzero, Hfour; lia|].
  rewrite Hzero, Hfour in Hfinal. simpl in Hfinal.
  assert (Hlen : length (logins before user).2 = 4%nat).
  { clear -Hfour. revert user Hfour. generalize 4%nat.
    induction before as [|attempt rest IH]; intros n user Hn; [done|].
    rewrite logins_cons. simpl in *. destruct n as [|n]; [done|].
    f_equal. apply IH. lia. }
  assert (Hlocked : isLocked now locked = true).
  { unfold isLocked, locked. simpl. lia. }
  split; [|split].
  - rewrite logins_app, Hfinal, logins_cons. simpl.
    unfold findByCredentials, isLocked, incLoginAttempts. simpl. rewrite Hfifth. simpl.
    f_equal.
    destruct (logins before user).2 as [|o1 [|o2 [|o3 [|o4 [|o5 l]]]]]; try done.
    apply Forall_cons in Hout as [-> Hout]. apply Forall_cons in Hout as [-> Hout].
    apply Forall_cons in Hout as [-> Hout]. apply Forall_cons in Hout as [-> Hout].
    done.
  - unfold findByCredentials. by rewrite Hlocked.
  - unfold checkAccountLock. by rewrite Hlocked.
Qed.

(** * The further properties on sample runs *)

(** Bob's session is sent nothing from his disconnect on, although Alice
    writes to the room he had joined. *)
Lemma nothing_after_disconnect_witness :
  ∃ after,
    (played (room1_joined ++ Disconnect "sB" "transport close" env0
               :: [Client "sA" MessageSend hi env0])).2
    = (played room1_joined).2 ++ after
    ∧ ∀ e, e ∈ after → "sB" ∉ recipients_of e.
Proof.
  apply (nothing_after_disconnect room1_joined [Client "sA" MessageSend hi env0]
           "sB" "transport close" env0);
    vm_compute; reflexivity.
Defined.


(** The record of Alice's [chat:join] names her, although the payload
    comes with a [userId] of its own. *)
Lemma activity_records_name_the_user_witness :
  ∃ message fields,
    Log "info" message fields
    ∈ effects_of (on_event ChatJoin env0 "sA" "A" "alice"
                    (JObj [("chatId", JStr "room1"); ("userId", JStr "B")])
                    (hub_after alice_and_bob))
    ∧ assoc "userId" fields = Some (VStr "A").
Proof.
  eexists _, _. split; [vm_compute; apply list_elem_of_here|].
  eapply (activity_records_name_the_user ChatJoin env0 "sA" "A" "alice"
            (JObj [("chatId", JStr "room1"); ("userId", JStr "B")])
            (hub_after alice_and_bob)).
  vm_compute. apply list_elem_of_here.
Defined.



(** Alice, who is in no room, joins ["room1"] and leaves it. *)
Lemma chat_leave_undoes_join_witness :
  hub_of (on_event ChatLeave env0 "sA" "A" "alice" in_room1 (hub_after alice_and_bob))
  = hub_after alice_and_bob
  ∧ hub_of (on_event ChatLeave env0 "sA" "A" "alice" in_room1
              (hub_of (on_event ChatJoin env0 "sA" "A" "alice" in_room1
                         (hub_after alice_and_bob))))
    = hub_after alice_and_bob.
Proof.
  apply (chat_leave_undoes_join env0 env0 "sA" "A" "alice" in_room1 (JStr "room1") "room1"
           (hub_after alice_and_bob)).
  - reflexivity.
  - reflexivity.
  - vm_compute. intros Hin. discriminate Hin.
Defined.

(** Alice types in ["room1"]: Bob is told. *)
Lemma typing_goes_to_the_other_members_witness :
  on_event TypingStart env0 "sA" "A" "alice" in_room1 (hub_after room1_joined) =
    (hub_after room1_joined,
     [Emit (joined "room1" (hub_after room1_joined) ∖ {["sA"]}) "typing:start"
        (VObj [("userId", VStr "A"); ("username", VStr "alice");
               ("chatId", VWire (JStr "room1"))])],
     Ok tt).
Proof.
  apply (typing_goes_to_the_other_members room1_joined (hub_after room1_joined)
           TypingStart "typing:start" env0 "sA" "A" "alice" in_room1 (JStr "room1") "room1").
  - vm_compute; reflexivity.
  - vm_compute. eexists; reflexivity.
  - apply list_elem_of_here.
  - reflexivity.
  - reflexivity.
Defined.






(** Bob disconnects while the account store is down. *)
Lemma failed_disconnect_leaves_the_session_listed_witness :
  getConnectedUsers
    (played (room1_joined ++ [Disconnect "sB" "transport close" store_down])).1
  = getConnectedUsers (played room1_joined).1.
Proof.
  apply (failed_disconnect_leaves_the_session_listed room1_joined "sB" "transport close"
           store_down
           (played room1_joined).1
           (played (room1_joined ++ [Disconnect "sB" "transport close" store_down])).1
           (played room1_joined).2
           (played (room1_joined ++ [Disconnect "sB" "transport close" store_down])).2);
    vm_compute; reflexivity.
Defined.





(** Alice is away when Carol connects. *)
Lemma status_shows_in_later_snapshots_witness :
  ∃ items,
    Emit {["sC"]} "users:online" (VArr items)
    ∈ effects_of
        (on_connection env0 "sC" "u7" "carol"
           (socket_open "sC" "u7" "carol"
              (hub_of (on_event UserStatus env0 "sA" "A" "alice" away
                         (hub_after alice_and_bob)))))
    ∧ VObj [("userId", VStr "A"); ("username", VStr "alice");
            ("status", VWire (JStr "away")); ("lastSeen", VDate (clock env0 1))] ∈ items.
Proof.
  apply (status_shows_in_later_snapshots env0 env0 "sA" "A" "alice" "sC" "u7" "carol"
           away (JStr "away") (new_entry env0 "sA" "A" "alice") (hub_after alice_and_bob)).
  - vm_compute; reflexivity.
  - reflexivity.
  - reflexivity.
  - reflexivity.
  - discriminate.
Defined.

(** Carol is let in by both gates. *)
Lemma the_gates_let_the_same_in_witness :
  ∃ mail,
    (authenticateToken (Some "Bearer eyJhbGciOi.carol")
       (verified attempt_carol) (account attempt_carol)).2
    = Next "u7" mail "carol".
Proof.
  apply (the_gates_let_the_same_in 1762128000000 "sC" attempt_carol
           (Some "Bearer eyJhbGciOi.carol") "u7" "carol"); reflexivity.
Defined.

(** The token is read from a header of another scheme as well. *)
Lemma the_token_is_the_second_word_witness :
  bearer (Some "Basic eyJhbGciOi.carol") = Some "eyJhbGciOi.carol".
Proof.
  apply (the_token_is_the_second_word "Basic" "eyJhbGciOi.carol"); reflexivity.
Defined.

(** Two requests a minute: of Carol's three requests, two are let
    through, whatever another client does in between. *)
Lemma rateLimitByUser_quota_witness :
  Z.of_nat
    (let_through (Some "u7")
       (serve 2 60000
          [ mkHit (Some carol_signed_in) None 1000;
            mkHit (Some carol_signed_in) None 2000;
            mkHit None (Some "10.0.0.1") 2500;
            mkHit (Some carol_signed_in) None 3000 ] ∅).1)
  = 2.
Proof.
  apply (rateLimitByUser_quota 2 60000 (Some carol_signed_in) None 1000
           [ mkHit (Some carol_signed_in) None 2000;
             mkHit None (Some "10.0.0.1") 2500;
             mkHit (Some carol_signed_in) None 3000 ] ∅).
  - intros userLimit Hnone. rewrite lookup_empty in Hnone. discriminate Hnone.
  - intros hit Hin _.
    repeat (apply elem_of_cons in Hin as [-> | Hin]; [simpl; lia|]).
    by apply elem_of_nil in Hin.
Defined.


(** Six wrong passwords on Carol's account. *)
Lemma the_lock_follows_the_count_witness :
  lock_inv (logins (map wrong_password [0; 1; 2; 3; 4; 5]) carol_account).1
  ∧ (is_Some (lockUntil (logins (map wrong_password [0; 1; 2; 3; 4; 5]) carol_account).1)
     ↔ 5 ≤ loginAttempts (logins (map wrong_password [0; 1; 2; 3; 4; 5]) carol_account).1).
Proof.
  apply (the_lock_follows_the_count (map wrong_password [0; 1; 2; 3; 4; 5]) carol_account).
  unfold lock_inv. simpl. lia.
Defined.

(** Five wrong passwords on Carol's account, a minute apart. *)
Lemma five_wrong_passwords_lock_the_account_witness :
  (logins (map wrong_password [0; 1; 2; 3] ++ [wrong_password 4]) carol_account).2
  = replicate 5 (inl "Invalid credentials").
Proof.
  destruct (five_wrong_passwords_lock_the_account carol_account
              (map wrong_password [0; 1; 2; 3]) (wrong_password 4)
              1762128300000 1762128300100 true carol_signed_in) as (Hlogins & _).
  - reflexivity.
  - reflexivity.
  - reflexivity.
  - repeat constructor.
  - simpl. lia.
  - by rewrite Hlogins.
Defined.
